(** * Verification of stim's command line argument parsing ([src/arg_parse.cc])

    A shallow embedding of the flag lookup functions of [arg_parse.cc].

    Modelling conventions:
    - [argv] is a [list string]; [argc] is its length.
    - A C string is a Rocq [string] holding the characters before its
      terminating NUL.  Reading [s[k]] is [c_at s k : option ascii], where
      [None] stands for the NUL character (the end of the string).
    - A pointer into a string, such as [argv[i] + n], is the suffix of the
      string starting at that offset ([ptr_add]).
    - The functions print to stderr and call [exit(EXIT_FAILURE)] on bad input;
      this is the [Exit] outcome, carrying the kind of failure and the list of
      texts written to stderr (one per [fprintf] call). *)

From Stdlib Require Import String Ascii List Bool Arith Lia ZArith QArith.
Import ListNotations.
Open Scope nat_scope.
Open Scope string_scope.

(** ** C strings and argument vectors *)

(** [s[k]]: [None] is the terminating NUL. *)
Definition c_at (s : string) (k : nat) : option ascii := String.get k s.

(** Pointer arithmetic [s + k] on a string, for [k <= strlen(s)]. *)
Definition ptr_add (s : string) (k : nat) : string :=
  String.substring k (String.length s - k) s.

(** [argv[i]]; only ever read at indices below [argc]. *)
Definition arg_at (argv : list string) (i : nat) : string := nth i argv "".

(** [s[0] == '-'] *)
Definition starts_with_dash (s : string) : bool :=
  match c_at s 0 with
  | Some c => Ascii.eqb c "-"%char
  | None => false
  end.

(** [strstr(s, name) == s]: the first occurrence of [name] in [s] is at the
    start of [s] exactly when [name] is a prefix of [s]. *)
Definition strstr_at_start (s name : string) : bool := String.prefix name s.

(** [loc[n] == c] *)
Definition c_is (s : string) (k : nat) (c : ascii) : bool :=
  match c_at s k with
  | Some d => Ascii.eqb d c
  | None => false
  end.

(** [loc[n] == '\0'] *)
Definition c_is_nul (s : string) (k : nat) : bool :=
  match c_at s k with
  | Some _ => false
  | None => true
  end.

(** ** [find_argument] *)

(** The loop [while (flag_count < argc && strcmp(argv[flag_count], "--") != 0)
    flag_count++;] started at [flag_count = 1]; [fuel] bounds the iterations. *)
Fixpoint flag_count_loop (argv : list string) (flag_count fuel : nat) : nat :=
  match fuel with
  | O => flag_count
  | S fuel' =>
      if Nat.ltb flag_count (List.length argv) && negb (String.eqb (arg_at argv flag_count) "--")
      then flag_count_loop argv (S flag_count) fuel'
      else flag_count
  end.

Definition flag_count (argv : list string) : nat :=
  flag_count_loop argv 1 (List.length argv).

(** The search loop [for (size_t i = 1; i < flag_count; i++) {...}] from index [i]. *)
Fixpoint find_argument_loop (name : string) (argv : list string)
    (flag_count i fuel : nat) : option string :=
  match fuel with
  | O => None
  | S fuel' =>
      if Nat.ltb i flag_count then
        let tok := arg_at argv i in
        let n := String.length name in
        (* if (loc != argv[i] || (loc[n] != '\0' && loc[n] != '=')) continue; *)
        if negb (strstr_at_start tok name) || (negb (c_is_nul tok n) && negb (c_is tok n "="%char))
        then find_argument_loop name argv flag_count (S i) fuel'
        else if c_is_nul tok n &&
                ((Nat.eqb i (List.length argv - 1)) || starts_with_dash (arg_at argv (S i)))
        then Some (ptr_add tok n)
        else if c_is tok n "="%char
        then Some (ptr_add tok (S n))
        else Some (arg_at argv (S i))
      else None
  end.

(** [find_argument(name, argc, argv)]; [None] is the null pointer. *)
Definition find_argument (name : string) (argv : list string) : option string :=
  let fc := flag_count argv in
  find_argument_loop name argv fc 1 fc.

(** ** Fatal errors *)

(** The failure kinds, one per diagnostic of [arg_parse.cc]. *)
Inductive arg_error :=
| MissingArgument
| MissingRequiredValue
| InvalidBooleanValue
| InvalidIntegerValue
| InvalidFloatValue
| IntegerOutOfRange
| FloatOutOfRange
| UnrecognizedArgument
| UnrecognizedEnumValue.

(** Either a returned value, or [exit(EXIT_FAILURE)] after the listed
    [fprintf(stderr, ...)] outputs. *)
Inductive outcome (A : Type) :=
| Ok (a : A)
| Exit (e : arg_error) (stderr : list string).
Arguments Ok {A} a.
Arguments Exit {A} e stderr.

Definition nl : string := String (ascii_of_nat 10) EmptyString.
(** ["\033[31m"] and ["\033[0m"] *)
Definition red : string := String (ascii_of_nat 27) "[31m".
Definition reset : string := String (ascii_of_nat 27) "[0m".

(** [%d] / [%ld] formatting of an integer. *)
Definition digit_char (d : Z) : ascii := ascii_of_nat (48 + Z.to_nat d).

Fixpoint show_digits (fuel : nat) (z : Z) (acc : string) : string :=
  match fuel with
  | O => acc
  | S fuel' =>
      let acc' := String (digit_char (z mod 10)) acc in
      if (z <? 10)%Z then acc' else show_digits fuel' (z / 10)%Z acc'
  end.

Definition show_Z (z : Z) : string :=
  if (z <? 0)%Z then "-" ++ show_digits 40 (- z)%Z "" else show_digits 40 z "".

(** ** [require_find_argument] *)

Definition require_find_argument (name : string) (argv : list string) : outcome string :=
  match find_argument name argv with
  | None => Exit MissingArgument
              [red ++ "Missing command line argument: '" ++ name ++ "'" ++ reset ++ nl]
  | Some result => Ok result
  end.

(** ** [find_bool_argument] *)

Definition find_bool_argument (name : string) (argv : list string) : outcome bool :=
  match find_argument name argv with
  | None => Ok false
  | Some text =>
      if c_is_nul text 0 then Ok true
      else Exit InvalidBooleanValue
             [red ++ "Got non-empty value '" ++ text ++ "' for boolean flag '" ++ name
                  ++ "'." ++ reset ++ nl]
  end.

(** ** [strtol(text, &processed, 10)] (glibc, LP64: [long] has 64 bits)

    Leading white space, an optional sign, then decimal digits.  The
    unclamped reading gives the mathematical value and the number of
    characters consumed, or [None] when no digit follows (no conversion). *)
Definition is_space (c : ascii) : bool :=
  let n := nat_of_ascii c in ((n =? 32) || ((9 <=? n) && (n <=? 13)))%nat.

Definition is_digit (c : ascii) : bool :=
  let n := nat_of_ascii c in ((48 <=? n) && (n <=? 57))%nat.

Definition digit_value (c : ascii) : Z := Z.of_nat (nat_of_ascii c - 48).

Fixpoint count_space (s : string) : nat :=
  match s with
  | String c s' => if is_space c then S (count_space s') else O
  | EmptyString => O
  end.

(** Accumulates the decimal digits at the start of [s]: value and count. *)
Fixpoint take_digits (s : string) (acc : Z) (k : nat) : Z * nat :=
  match s with
  | String c s' => if is_digit c then take_digits s' (acc * 10 + digit_value c)%Z (S k) else (acc, k)
  | EmptyString => (acc, k)
  end.

(** The optional sign: is it ['-'], and how many characters it takes. *)
Definition take_sign (s : string) : bool * nat :=
  match s with
  | String c _ =>
      if Ascii.eqb c "-"%char then (true, 1)
      else if Ascii.eqb c "+"%char then (false, 1) else (false, 0)
  | EmptyString => (false, 0)
  end.

Definition strtol_unclamped (text : string) : option (Z * nat) :=
  let w := count_space text in
  let s1 := ptr_add text w in
  let (neg, sl) := take_sign s1 in
  let (v, nd) := take_digits (ptr_add s1 sl) 0%Z 0 in
  if (nd =? 0)%nat then None
  else Some ((if neg then - v else v)%Z, (w + sl + nd)%nat).

Definition LONG_MIN : Z := (- 2 ^ 63)%Z.
Definition LONG_MAX : Z := (2 ^ 63 - 1)%Z.

(** Out of range values saturate at [LONG_MIN] / [LONG_MAX] (with [ERANGE]). *)
Definition clamp_long (z : Z) : Z := Z.max LONG_MIN (Z.min LONG_MAX z).

(** Result value and [processed - text]; no conversion gives [0] and
    [processed == text]. *)
Definition strtol (text : string) : Z * nat :=
  match strtol_unclamped text with
  | None => (0%Z, 0)
  | Some (z, k) => (clamp_long z, k)
  end.

(** The conversion [(int)i] to a 32-bit [int] (wrap-around). *)
Definition to_int32 (z : Z) : Z := ((z + 2 ^ 31) mod 2 ^ 32 - 2 ^ 31)%Z.

(** ** [find_int_argument]; [int] arguments are [Z]s. *)

Definition find_int_argument (name : string) (default_value min_value max_value : Z)
    (argv : list string) : outcome Z :=
  let no_value :=
    if (default_value <? min_value)%Z || (default_value >? max_value)%Z
    then Exit MissingRequiredValue
           [red ++ "Must specify a value for int flag '" ++ name ++ "'." ++ nl ++ reset]
    else Ok default_value in
  match find_argument name argv with
  | None => no_value
  | Some text =>
      if c_is_nul text 0 then no_value
      else
        let (i, processed) := strtol text in
        if negb (c_is_nul text processed) then
          Exit InvalidIntegerValue
            [red ++ "Got non-integer value '" ++ text ++ "' for integer flag '" ++ name
                 ++ "'." ++ reset ++ nl]
        else if (i <? min_value)%Z || (i >? max_value)%Z then
          Exit IntegerOutOfRange
            [red ++ "Integer value '" ++ text ++ "' for flag '" ++ name ++ "' doesn't satisfy "
                 ++ show_Z min_value ++ " <= " ++ show_Z i ++ " <= " ++ show_Z max_value
                 ++ "." ++ reset ++ nl]
        else Ok (to_int32 i)
  end.

(** ** Floating point values

    A [float] is NaN, a signed infinity or a finite value.  Finite values
    are kept as exact rationals: the checks of [arg_parse.cc] only compare
    floats, and the comparisons below follow IEEE 754 (every ordered
    comparison with NaN is false, and NaN is unequal to itself). *)
Inductive float :=
| FNaN
| FInf (negative : bool)
| FFin (q : Q).

Definition Qltb (x y : Q) : bool :=
  match (x ?= y)%Q with Lt => true | _ => false end.

(** [a < b] *)
Definition flt_lt (a b : float) : bool :=
  match a, b with
  | FFin x, FFin y => Qltb x y
  | FInf true, FInf false => true
  | FInf true, FFin _ => true
  | FFin _, FInf false => true
  | _, _ => false
  end.

(** [a > b] *)
Definition flt_gt (a b : float) : bool := flt_lt b a.

(** [a == b]; [f != f] is [negb (flt_eq f f)]. *)
Definition flt_eq (a b : float) : bool :=
  match a, b with
  | FFin x, FFin y => Qeq_bool x y
  | FInf x, FInf y => Bool.eqb x y
  | _, _ => false
  end.

(** [a <= b] in IEEE 754: less or equal, false when either side is NaN. *)
Definition flt_le (a b : float) : bool := flt_lt a b || flt_eq a b.

Definition is_nan (f : float) : bool :=
  match f with FNaN => true | _ => false end.

(** ** [strtof(text, &processed)]

    Leading white space, an optional sign, then ["inf"], ["infinity"] or
    ["nan"] (any case), or a decimal mantissa with at least one digit and an
    optional ['.'], followed by an optional exponent ([e] or [E], an optional
    sign, at least one digit).  Hexadecimal input, ["nan(...)"], and the
    rounding of the value to [float] precision are not modelled.  When no
    conversion can be performed the result is [0] and [processed == text]. *)
Definition lower (c : ascii) : ascii :=
  let n := nat_of_ascii c in
  if ((65 <=? n) && (n <=? 90))%nat then ascii_of_nat (n + 32) else c.

Fixpoint lower_string (s : string) : string :=
  match s with
  | String c s' => String (lower c) (lower_string s')
  | EmptyString => EmptyString
  end.

(** [m * 10^e] *)
Definition decimal_Q (m e : Z) : Q :=
  if (e >=? 0)%Z then inject_Z (m * 10 ^ e)%Z else Qmake m (Z.to_pos (10 ^ (- e))%Z).

(** The exponent part at the start of [s]: its value and its length. *)
Definition take_exponent (s : string) : Z * nat :=
  if c_is s 0 "e"%char || c_is s 0 "E"%char then
    let (eneg, esl) := take_sign (ptr_add s 1) in
    let (ev, ne) := take_digits (ptr_add s (1 + esl)) 0%Z 0 in
    if (ne =? 0)%nat then (0%Z, 0) else ((if eneg then - ev else ev)%Z, (1 + esl + ne)%nat)
  else (0%Z, 0).

Definition strtof (text : string) : float * nat :=
  let w := count_space text in
  let s1 := ptr_add text w in
  let (neg, sl) := take_sign s1 in
  let s2 := ptr_add s1 sl in
  let low := lower_string s2 in
  if String.prefix "infinity" low then (FInf neg, (w + sl + 8)%nat)
  else if String.prefix "inf" low then (FInf neg, (w + sl + 3)%nat)
  else if String.prefix "nan" low then (FNaN, (w + sl + 3)%nat)
  else
    let (ip, ni) := take_digits s2 0%Z 0 in
    let s3 := ptr_add s2 ni in
    let has_dot := c_is s3 0 "."%char in
    let (m, nf) := if has_dot then take_digits (ptr_add s3 1) ip 0 else (ip, 0) in
    if ((ni + nf) =? 0)%nat then (FFin 0%Q, 0)
    else
      let k := (w + sl + ni + (if has_dot then 1 + nf else 0))%nat in
      let (e, ne) := take_exponent (ptr_add text k) in
      let v := decimal_Q m (e - Z.of_nat nf)%Z in
      (FFin (if neg then (- v)%Q else v), (k + ne)%nat).

(** [%f] formatting: six decimals, rounded to nearest. *)
Fixpoint zeros (k : nat) : string :=
  match k with O => "" | S k' => "0" ++ zeros k' end.

Definition fmt_f (f : float) : string :=
  match f with
  | FNaN => "nan"
  | FInf neg => if neg then "-inf" else "inf"
  | FFin q =>
      let num := Z.abs (Qnum q) in
      let den := Zpos (Qden q) in
      let m := ((2 * num * 10 ^ 6 + den) / (2 * den))%Z in
      let frac := show_Z (m mod 10 ^ 6)%Z in
      (if Qltb q 0 then "-" else "") ++ show_Z (m / 10 ^ 6)%Z ++ "."
        ++ zeros (6 - String.length frac) ++ frac
  end.

(** ** [find_float_argument] *)

Definition find_float_argument (name : string) (default_value min_value max_value : float)
    (argv : list string) : outcome float :=
  match find_argument name argv with
  | None =>
      if flt_lt default_value min_value || flt_gt default_value max_value
      then Exit MissingRequiredValue
             [red ++ "Must specify a value for float flag '" ++ name ++ "'." ++ nl ++ reset]
      else Ok default_value
  | Some text =>
      let (f, processed) := strtof text in
      if negb (c_is_nul text processed) then
        Exit InvalidFloatValue
          [red ++ "Got non-float value '" ++ text ++ "' for float flag '" ++ name
               ++ "'." ++ reset ++ nl]
      else if flt_lt f min_value || flt_gt f max_value || negb (flt_eq f f) then
        Exit FloatOutOfRange
          [red ++ "Float value '" ++ text ++ "' for flag '" ++ name ++ "' doesn't satisfy "
               ++ fmt_f min_value ++ " <= " ++ fmt_f f ++ " <= " ++ fmt_f max_value
               ++ "." ++ reset ++ nl]
      else Ok f
  end.

(** ** [find_enum_argument]; [int] arguments and results are [Z]s. *)

(** [for (size_t i = 0; ...) if (!strcmp(text, known_values[i])) return i;] *)
Fixpoint find_enum_loop (text : string) (known_values : list string) (i : nat) : option nat :=
  match known_values with
  | [] => None
  | v :: rest => if String.eqb text v then Some i else find_enum_loop text rest (S i)
  end.

(** The listing ["    '%s'%s\n"], the default one annotated.  A negative
    [default_index] cast to [size_t] equals no index. *)
Fixpoint enum_listing (known_values : list string) (default_index : Z) (i : nat) : list string :=
  match known_values with
  | [] => []
  | v :: rest =>
      ("    '" ++ v ++ "'" ++ (if (Z.of_nat i =? default_index)%Z then " (default)" else "") ++ nl)
        :: enum_listing rest default_index (S i)
  end.

Definition find_enum_argument (name : string) (default_index : Z) (known_values : list string)
    (argv : list string) : outcome Z :=
  let listing :=
    ("Recognized values are:" ++ nl) :: enum_listing known_values default_index 0 ++ [reset] in
  match find_argument name argv with
  | None =>
      if (default_index >=? 0)%Z then Ok default_index
      else Exit MissingRequiredValue
             ((red ++ "Must specify a value for enum flag '" ++ name ++ "'." ++ nl) :: listing)
  | Some text =>
      match find_enum_loop text known_values 0 with
      | Some i => Ok (Z.of_nat i)
      | None =>
          Exit UnrecognizedEnumValue
            ((red ++ "Unrecognized value '" ++ text ++ "' for enum flag '" ++ name ++ "'." ++ nl)
               :: listing)
      end
  end.

(** ** [check_for_unknown_arguments]; [for_mode] is [None] for [nullptr]. *)

(** [loc == argv[i] && (loc[n] == '\0' || loc[n] == '=')] for a known name. *)
Definition known_matches (tok known : string) : bool :=
  strstr_at_start tok known &&
  (c_is_nul tok (String.length known) || c_is tok (String.length known) "="%char).

(** The inner loop over [j]: the first known argument the token matches. *)
Fixpoint first_known_match (known_arguments : list string) (tok : string) : option string :=
  match known_arguments with
  | [] => None
  | k :: rest => if known_matches tok k then Some k else first_known_match rest tok
  end.

Definition unrecognized_message (known_arguments : list string) (for_mode : option string)
    (tok : string) : list string :=
  match for_mode with
  | None =>
      [red ++ "Unrecognized command line argument " ++ tok ++ "." ++ nl;
       "Recognized command line arguments:" ++ nl]
  | Some mode =>
      [red ++ "Unrecognized command line argument " ++ tok ++ " for mode " ++ mode ++ "." ++ nl;
       "Recognized command line arguments for mode " ++ mode ++ ":" ++ nl]
  end
  ++ map (fun k => "    " ++ k ++ nl) known_arguments ++ [reset].

(** The loop [for (int i = 1; i < argc; i++) {...}] from index [i]; a
    matched bare flag followed by a word skips that word ([i++]). *)
Fixpoint check_loop (known_arguments : list string) (for_mode : option string)
    (argv : list string) (i fuel : nat) : outcome unit :=
  match fuel with
  | O => Ok tt
  | S fuel' =>
      if Nat.ltb i (List.length argv) then
        let tok := arg_at argv i in
        if String.eqb tok "--" then Ok tt
        else match first_known_match known_arguments tok with
             | Some k =>
                 let i' :=
                   if c_is_nul tok (String.length k) && Nat.ltb i (List.length argv - 1)
                      && negb (starts_with_dash (arg_at argv (S i)))
                   then S i else i in
                 check_loop known_arguments for_mode argv (S i') fuel'
             | None => Exit UnrecognizedArgument (unrecognized_message known_arguments for_mode tok)
             end
      else Ok tt
  end.

Definition check_for_unknown_arguments (known_arguments : list string)
    (for_mode : option string) (argv : list string) : outcome unit :=
  check_loop known_arguments for_mode argv 1 (List.length argv).

(** ** The vocabulary of the specification

    These definitions follow the words of the specification, to state
    the claims; they are not taken from the code. *)

(** The first index [>= k] of a literal ["--"] in [l], counting from [k]. *)
Fixpoint first_dashdash_from (l : list string) (k : nat) : option nat :=
  match l with
  | [] => None
  | t :: l' => if String.eqb t "--" then Some k else first_dashdash_from l' (S k)
  end.

(** Flag boundary: the index of the first literal ["--"] token among the
    scanned tokens (index 0, the program name, is never scanned), or the
    vector length if there is none. *)
Definition boundary (argv : list string) : nat :=
  match argv with
  | [] => 0
  | _ :: rest =>
      match first_dashdash_from rest 1 with
      | Some k => k
      | None => List.length argv
      end
  end.

(** A flag token for [name]: exactly [name], or [name=value]. *)
Definition token_matches (name tok : string) : Prop :=
  tok = name \/ exists v, tok = name ++ "=" ++ v.

(** The first known name, in list order, that a token matches. *)
Definition first_match (known : list string) (tok k : string) : Prop :=
  exists pre post, known = (pre ++ k :: post)%list /\ token_matches k tok /\
                   Forall (fun k' => ~ token_matches k' tok) pre.

(** A matched bare flag whose next token is an eligible word that does not
    begin with ['-']: that word is the flag's value. *)
Definition skips_value (argv : list string) (i : nat) (k : string) : Prop :=
  arg_at argv i = k /\ S i < boundary argv /\ starts_with_dash (arg_at argv (S i)) = false.

(** The left-to-right scan of the unknown-argument check, from position [i],
    reaching the boundary. *)
Inductive scan_accepts (known argv : list string) : nat -> Prop :=
| scan_done i : boundary argv <= i -> scan_accepts known argv i
| scan_flag i k : i < boundary argv -> first_match known (arg_at argv i) k ->
    ~ skips_value argv i k -> scan_accepts known argv (S i) -> scan_accepts known argv i
| scan_value i k : i < boundary argv -> first_match known (arg_at argv i) k ->
    skips_value argv i k -> scan_accepts known argv (S (S i)) -> scan_accepts known argv i.

(** The same scan, from position [i], stopping at the unmatched token [j]. *)
Inductive scan_rejects (known argv : list string) : nat -> nat -> Prop :=
| reject_here i : i < boundary argv ->
    (forall k, In k known -> ~ token_matches k (arg_at argv i)) -> scan_rejects known argv i i
| reject_flag i j k : i < boundary argv -> first_match known (arg_at argv i) k ->
    ~ skips_value argv i k -> scan_rejects known argv (S i) j -> scan_rejects known argv i j
| reject_value i j k : i < boundary argv -> first_match known (arg_at argv i) k ->
    skips_value argv i k -> scan_rejects known argv (S (S i)) j -> scan_rejects known argv i j.

(** ** Auxiliary definitions for the proofs *)

(** The test of [find_argument] and [check_for_unknown_arguments]:
    [loc == argv[i] && (loc[n] == '\0' || loc[n] == '=')]. *)
Definition code_match (name tok : string) : bool :=
  strstr_at_start tok name &&
  (c_is_nul tok (String.length name) || c_is tok (String.length name) "="%char).

(** What both the code's [flag_count] and the spec's [boundary] are, on a
    non-empty vector. *)
Definition boundary_shape (argv : list string) (b : nat) : Prop :=
  1 <= b <= List.length argv /\
  (forall j, 1 <= j < b -> arg_at argv j <> "--") /\
  (b < List.length argv -> arg_at argv b = "--").

(** What the loop returns at a matching position [i]. *)
Definition code_value (name : string) (argv : list string) (i : nat) : option string :=
  let tok := arg_at argv i in
  let n := String.length name in
  if c_is_nul tok n &&
     ((Nat.eqb i (List.length argv - 1)) || starts_with_dash (arg_at argv (S i)))
  then Some (ptr_add tok n)
  else if c_is tok n "="%char
  then Some (ptr_add tok (S n))
  else Some (arg_at argv (S i)).

(** The value the specification gives for a matching eligible token [i]. *)
Definition claimed_value (name : string) (argv : list string) (i : nat) : option string :=
  let tok := arg_at argv i in
  if String.eqb tok name then
    if Nat.eqb (S i) (boundary argv) || starts_with_dash (arg_at argv (S i))
    then Some "" else Some (arg_at argv (S i))
  else Some (ptr_add tok (S (String.length name))).

(** The values of a C [int]. *)
Definition in_int32 (z : Z) : Prop := (- 2 ^ 31 <= z < 2 ^ 31)%Z.

(** ** The definitions on the spec's examples *)

Example find_argument_ex1 : find_argument "x" ["prog"; "x"] = Some "".
Proof. reflexivity. Qed.
Example find_argument_ex2 : find_argument "x" ["prog"; "x"; "--"] = Some "".
Proof. reflexivity. Qed.
Example find_argument_ex3 : find_argument "x" ["prog"; "x"; "5"] = Some "5".
Proof. reflexivity. Qed.
Example find_argument_ex4 : find_argument "x" ["prog"; "x=5"] = Some "5".
Proof. reflexivity. Qed.
Example find_argument_ex5 : find_argument "x" ["prog"; "y"; "5"; "--"; "x"] = None.
Proof. reflexivity. Qed.
Example find_int_argument_ex1 : find_int_argument "n" 0 0 10 ["prog"; "n=7"] = Ok 7%Z.
Proof. reflexivity. Qed.
Example find_int_argument_ex2 :
  exists out, find_int_argument "n" 0 0 10 ["prog"; "n=11"] = Exit IntegerOutOfRange out.
Proof. eexists. reflexivity. Qed.
Example find_int_argument_ex3 :
  exists out, find_int_argument "n" 0 0 10 ["prog"; "n"; "7x"] = Exit InvalidIntegerValue out.
Proof. eexists. reflexivity. Qed.
Example find_bool_argument_ex1 :
  exists out, find_bool_argument "v" ["prog"; "v=yes"] = Exit InvalidBooleanValue out.
Proof. eexists. reflexivity. Qed.
Example strtof_ex1 : strtof " -1.5e2x" = (FFin (-150)%Q, 7).
Proof. reflexivity. Qed.
Example strtof_ex2 : strtof "" = (FFin 0%Q, 0).
Proof. reflexivity. Qed.
Example fmt_f_ex : fmt_f (FFin (-1 # 3)%Q) = "-0.333333".
Proof. reflexivity. Qed.
Example find_float_argument_ex1 :
  find_float_argument "p" (FFin 0) (FFin 0) (FFin 1) ["prog"; "p=0.25"] = Ok (FFin (25 # 100)).
Proof. reflexivity. Qed.
Example find_float_argument_ex2 :
  exists out, find_float_argument "p" (FFin 0) (FFin 0) (FFin 1) ["prog"; "p=nan"]
              = Exit FloatOutOfRange out.
Proof. eexists. reflexivity. Qed.
Example find_enum_argument_ex1 : find_enum_argument "mode" 1 ["a"; "b"; "c"] ["prog"] = Ok 1%Z.
Proof. reflexivity. Qed.
Example find_enum_argument_ex2 :
  exists out, find_enum_argument "mode" 1 ["a"; "b"; "c"] ["prog"; "mode=z"]
              = Exit UnrecognizedEnumValue out.
Proof. eexists. reflexivity. Qed.
Example check_ex1 : check_for_unknown_arguments ["--flag"] None ["prog"; "--flag=3"] = Ok tt.
Proof. reflexivity. Qed.
Example check_ex2 :
  exists out, check_for_unknown_arguments ["--flag"] None ["prog"; "--other"]
              = Exit UnrecognizedArgument out.
Proof. eexists. reflexivity. Qed.
Example check_ex3 :
  check_for_unknown_arguments ["--flag"] None ["prog"; "--flag"; "word"; "--"; "x"] = Ok tt.
Proof. reflexivity. Qed.

(** * Lemmas *)

(** ** Strings *)

Lemma str_length_append (s r : string) :
  String.length (s ++ r) = String.length s + String.length r.
Proof. induction s as [|c s IH]; simpl; [reflexivity | now rewrite IH]. Qed.

Lemma str_append_assoc (a b c : string) : (a ++ b) ++ c = a ++ (b ++ c).
Proof. induction a as [|x a IH]; simpl; [reflexivity | now rewrite IH]. Qed.

Lemma str_append_nil (s : string) : s ++ "" = s.
Proof. induction s as [|x s IH]; simpl; [reflexivity | now rewrite IH]. Qed.

Lemma get_append_length (s r : string) (k : nat) :
  String.get (String.length s + k) (s ++ r) = String.get k r.
Proof. induction s as [|c s IH]; simpl; auto. Qed.

Lemma prefix_append (s r : string) : String.prefix s (s ++ r) = true.
Proof.
  induction s as [|c s IH]; simpl; [now destruct r|].
  destruct (ascii_dec c c); [exact IH | congruence].
Qed.

Lemma prefix_inv (s t : string) : String.prefix s t = true -> exists r, t = s ++ r.
Proof.
  revert t; induction s as [|c s IH]; intros t H.
  - now exists t.
  - destruct t as [|d t]; [discriminate|]. simpl in H.
    destruct (ascii_dec c d) as [<-|]; [|discriminate].
    destruct (IH t H) as [r ->]. now exists r.
Qed.

Lemma substring_full (r : string) : String.substring 0 (String.length r) r = r.
Proof. induction r as [|c r IH]; simpl; [reflexivity | now rewrite IH]. Qed.

Lemma substring_append (s r : string) (m : nat) :
  String.substring (String.length s) m (s ++ r) = String.substring 0 m r.
Proof. induction s as [|c s IH]; simpl; [reflexivity | exact IH]. Qed.

Lemma ptr_add_append (s r : string) : ptr_add (s ++ r) (String.length s) = r.
Proof.
  unfold ptr_add. rewrite str_length_append, substring_append.
  replace (String.length s + String.length r - String.length s) with (String.length r) by lia.
  apply substring_full.
Qed.

Lemma ptr_add_length (s : string) : ptr_add s (String.length s) = "".
Proof. rewrite <- (str_append_nil s) at 1. apply ptr_add_append. Qed.

Lemma ptr_add_inline (s v : string) : ptr_add (s ++ "=" ++ v) (S (String.length s)) = v.
Proof.
  rewrite <- str_append_assoc.
  replace (S (String.length s)) with (String.length (s ++ "=")) by (rewrite str_length_append; simpl; lia).
  apply ptr_add_append.
Qed.

Lemma c_at_length (s : string) : c_at s (String.length s) = None.
Proof.
  unfold c_at. rewrite <- (str_append_nil s) at 2.
  rewrite <- (Nat.add_0_r (String.length s)). now rewrite get_append_length.
Qed.

Lemma c_at_inline (s v : string) : c_at (s ++ "=" ++ v) (String.length s) = Some "="%char.
Proof.
  unfold c_at. rewrite <- (Nat.add_0_r (String.length s)). now rewrite get_append_length.
Qed.

(** ** Matching a flag token *)

Lemma code_match_spec (name tok : string) :
  code_match name tok = true <-> token_matches name tok.
Proof.
  unfold code_match, token_matches, strstr_at_start. split.
  - intros H. apply andb_true_iff in H as [Hp Hc].
    destruct (prefix_inv _ _ Hp) as [r ->].
    unfold c_is_nul, c_is, c_at in Hc.
    rewrite <- (Nat.add_0_r (String.length name)), get_append_length in Hc.
    destruct r as [|c r]; simpl in Hc.
    + left. apply str_append_nil.
    + right. exists r. apply Ascii.eqb_eq in Hc. now subst c.
  - intros [-> | [v ->]]; apply andb_true_iff; split.
    + rewrite <- (str_append_nil name) at 2. apply prefix_append.
    + unfold c_is_nul. now rewrite c_at_length.
    + apply prefix_append.
    + unfold c_is. rewrite c_at_inline. apply orb_true_r.
Qed.

Lemma code_match_false (name tok : string) :
  code_match name tok = false <-> ~ token_matches name tok.
Proof.
  rewrite <- code_match_spec. destruct (code_match name tok); split; congruence.
Qed.

(** ** The flag boundary *)

Lemma boundary_shape_unique argv b1 b2 :
  boundary_shape argv b1 -> boundary_shape argv b2 -> b1 = b2.
Proof.
  intros (H1 & A1 & E1) (H2 & A2 & E2).
  destruct (Nat.lt_trichotomy b1 b2) as [Hlt | [Heq | Hlt]]; auto.
  - exfalso. apply (A2 b1); [lia | apply E1; lia].
  - exfalso. apply (A1 b2); [lia | apply E2; lia].
Qed.

Lemma first_dashdash_from_spec (l : list string) (k : nat) :
  match first_dashdash_from l k with
  | Some m => k <= m < k + List.length l /\ nth (m - k) l "" = "--" /\
              (forall j, k <= j < m -> nth (j - k) l "" <> "--")
  | None => forall j, j < List.length l -> nth j l "" <> "--"
  end.
Proof.
  revert k; induction l as [|t l IH]; intros k; simpl.
  - intros j Hj. lia.
  - destruct (String.eqb_spec t "--") as [Ht | Ht].
    + split; [lia|]. rewrite Nat.sub_diag. split; [exact Ht | intros j Hj; lia].
    + specialize (IH (S k)). destruct (first_dashdash_from l (S k)) as [m|].
      * destruct IH as (Hm & Hn & Ha). split; [lia|].
        replace (m - k) with (S (m - S k)) by lia. split; [exact Hn|].
        intros j Hj. destruct (Nat.eq_dec j k) as [->|Hne].
        -- now rewrite Nat.sub_diag.
        -- replace (j - k) with (S (j - S k)) by lia. apply Ha. lia.
      * intros [|j] Hj; [exact Ht|]. apply IH. lia.
Qed.

Lemma boundary_is_shape (argv : list string) :
  argv <> [] -> boundary_shape argv (boundary argv).
Proof.
  destruct argv as [|x rest]; [congruence|]. intros _.
  unfold boundary, boundary_shape, arg_at.
  pose proof (first_dashdash_from_spec rest 1) as H.
  destruct (first_dashdash_from rest 1) as [m|]; simpl.
  - destruct H as (Hm & Hn & Ha). split; [lia|]. split.
    + intros j Hj. destruct j as [|j]; [lia|]. specialize (Ha (S j)). simpl in Ha.
      rewrite Nat.sub_0_r in Ha. apply Ha. lia.
    + intros _. destruct m as [|m]; [lia|]. simpl in Hn. now rewrite Nat.sub_0_r in Hn.
  - split; [lia|]. split; [|lia].
    intros [|j] Hj; [lia|]. apply H. lia.
Qed.

Lemma flag_count_loop_shape (argv : list string) :
  forall fuel k, 1 <= k <= List.length argv -> List.length argv <= k + fuel ->
  (forall j, 1 <= j < k -> arg_at argv j <> "--") ->
  boundary_shape argv (flag_count_loop argv k fuel).
Proof.
  induction fuel as [|fuel IH]; intros k Hk Hf Ha; simpl.
  - replace k with (List.length argv) in * by lia. repeat split; auto; lia.
  - destruct (Nat.ltb_spec k (List.length argv)) as [Hlt|Hge]; simpl.
    + destruct (String.eqb_spec (arg_at argv k) "--") as [Hd|Hd]; simpl.
      * repeat split; auto; lia.
      * apply IH; [lia | lia |]. intros j Hj.
        destruct (Nat.eq_dec j k) as [->|]; [exact Hd | apply Ha; lia].
    + repeat split; auto; lia.
Qed.

Lemma flag_count_boundary (argv : list string) :
  argv <> [] -> flag_count argv = boundary argv.
Proof.
  intros Hne. apply (boundary_shape_unique argv).
  - unfold flag_count. apply flag_count_loop_shape; [| lia | intros; lia].
    destruct argv; [congruence | simpl; lia].
  - now apply boundary_is_shape.
Qed.

(** The scanned positions of the code are exactly the eligible ones. *)
Lemma flag_count_range (argv : list string) (j : nat) :
  1 <= j -> (j < flag_count argv <-> j < boundary argv).
Proof.
  intros Hj. destruct argv as [|x rest].
  - cbn. lia.
  - now rewrite flag_count_boundary.
Qed.

(** On an eligible position, the code's test for the last eligible token. *)
Lemma last_or_dash (argv : list string) (i : nat) :
  1 <= i < boundary argv ->
  ((Nat.eqb i (List.length argv - 1) || starts_with_dash (arg_at argv (S i))) =
   (Nat.eqb (S i) (boundary argv) || starts_with_dash (arg_at argv (S i)))).
Proof.
  intros Hi. assert (Hne : argv <> []) by (destruct argv; simpl in Hi; [lia | discriminate]).
  destruct (boundary_is_shape argv Hne) as (Hb & Ha & He).
  destruct (Nat.eqb_spec i (List.length argv - 1)) as [E1|E1];
  destruct (Nat.eqb_spec (S i) (boundary argv)) as [E2|E2]; simpl; auto; try lia.
  rewrite <- E2 in He. rewrite He by lia. reflexivity.
Qed.

(** ** The search loop of [find_argument] *)

Lemma find_argument_loop_step name argv fc i fuel :
  Nat.ltb i fc = true ->
  find_argument_loop name argv fc i (S fuel) =
  if code_match name (arg_at argv i) then code_value name argv i
  else find_argument_loop name argv fc (S i) fuel.
Proof.
  intros H. simpl. rewrite H. unfold code_match, code_value.
  destruct (strstr_at_start _ _), (c_is_nul _ _), (c_is _ _ _); reflexivity.
Qed.

Lemma code_value_some name argv i : code_value name argv i <> None.
Proof. unfold code_value. destruct (_ && _); [|destruct (c_is _ _ _)]; discriminate. Qed.

Lemma find_argument_loop_found name argv fc :
  forall fuel i k, i <= k < fc -> k < i + fuel ->
  (forall j, i <= j < k -> code_match name (arg_at argv j) = false) ->
  code_match name (arg_at argv k) = true ->
  find_argument_loop name argv fc i fuel = code_value name argv k.
Proof.
  induction fuel as [|fuel IH]; intros i k Hk Hf Hb Hm; [lia|].
  rewrite find_argument_loop_step by (apply Nat.ltb_lt; lia).
  destruct (Nat.eq_dec i k) as [->|Hne]; [now rewrite Hm|].
  rewrite Hb by lia. apply IH; auto; try lia. intros j Hj. apply Hb. lia.
Qed.

Lemma find_argument_loop_none name argv fc :
  forall fuel i, fc <= i + fuel ->
  (find_argument_loop name argv fc i fuel = None <->
   forall j, i <= j < fc -> code_match name (arg_at argv j) = false).
Proof.
  induction fuel as [|fuel IH]; intros i Hf.
  - simpl. split; [intros _ j Hj; lia | reflexivity].
  - destruct (Nat.ltb_spec i fc) as [Hlt|Hge].
    + rewrite find_argument_loop_step by (now apply Nat.ltb_lt).
      destruct (code_match name (arg_at argv i)) eqn:Hm.
      * split; [intros H; now apply code_value_some in H|].
        intros H. rewrite (H i) in Hm; [discriminate | lia].
      * rewrite IH by lia. split.
        -- intros H j Hj. destruct (Nat.eq_dec j i) as [->|]; [exact Hm | apply H; lia].
        -- intros H j Hj. apply H. lia.
    + simpl. assert (E : Nat.ltb i fc = false) by (now apply Nat.ltb_ge). rewrite E. split; [intros _ j Hj; lia | reflexivity].
Qed.

Lemma code_value_claimed name argv i :
  1 <= i < boundary argv -> token_matches name (arg_at argv i) ->
  code_value name argv i = claimed_value name argv i.
Proof.
  intros Hi Hm. unfold code_value, claimed_value. rewrite last_or_dash by exact Hi.
  destruct Hm as [Ht | [v Ht]]; rewrite Ht.
  - unfold c_is_nul, c_is. rewrite c_at_length, String.eqb_refl, ptr_add_length. simpl.
    now destruct (_ || _).
  - assert (Hne : String.eqb (name ++ "=" ++ v) name = false).
    { apply String.eqb_neq. intros E. apply (f_equal String.length) in E.
      rewrite str_length_append in E. simpl in E. lia. }
    rewrite Hne. unfold c_is_nul, c_is. rewrite c_at_inline. reflexivity.
Qed.

(** The result at the first eligible matching token. *)
Lemma find_argument_first name argv k :
  1 <= k < boundary argv -> token_matches name (arg_at argv k) ->
  (forall j, 1 <= j < k -> ~ token_matches name (arg_at argv j)) ->
  find_argument name argv = claimed_value name argv k.
Proof.
  intros Hk Hm Hb. unfold find_argument.
  rewrite (find_argument_loop_found name argv (flag_count argv) _ 1 k).
  - now apply code_value_claimed.
  - split; [lia|]. apply flag_count_range; lia.
  - assert (k < flag_count argv) by (apply flag_count_range; lia). lia.
  - intros j Hj. apply code_match_false, Hb. lia.
  - now apply code_match_spec.
Qed.

Lemma boundary_nil_iff (argv : list string) : boundary argv = 0 <-> argv = [].
Proof.
  split; [|now intros ->].
  destruct argv as [|x rest]; [reflexivity|]. intros H.
  pose proof (boundary_is_shape (x :: rest) ltac:(discriminate)) as (Hb & _). lia.
Qed.

Lemma flag_count_same_boundary (argv argv' : list string) :
  boundary argv' = boundary argv -> flag_count argv' = flag_count argv.
Proof.
  intros Hb. destruct argv as [|x rest].
  - apply boundary_nil_iff in Hb. now subst.
  - assert (argv' <> []) by (intros ->; symmetry in Hb; apply boundary_nil_iff in Hb; discriminate Hb).
    rewrite !flag_count_boundary by (auto; discriminate). exact Hb.
Qed.

(** Only the eligible tokens and the boundary decide the result. *)
Lemma find_argument_loop_agree name argv argv' :
  boundary argv' = boundary argv ->
  (forall i, 1 <= i < boundary argv -> arg_at argv' i = arg_at argv i) ->
  forall fuel i, 1 <= i ->
  find_argument_loop name argv' (flag_count argv) i fuel =
  find_argument_loop name argv (flag_count argv) i fuel.
Proof.
  intros Hb Ht. induction fuel as [|fuel IH]; intros i Hi; [reflexivity|].
  destruct (Nat.ltb i (flag_count argv)) eqn:Hlt.
  - assert (Hel : 1 <= i < boundary argv)
      by (apply Nat.ltb_lt, flag_count_range in Hlt; lia).
    rewrite !find_argument_loop_step by exact Hlt.
    rewrite (Ht i Hel). destruct (code_match name (arg_at argv i)) eqn:Hm.
    + apply code_match_spec in Hm.
      rewrite !code_value_claimed; auto; [| rewrite Hb; exact Hel | rewrite (Ht i Hel); exact Hm].
      unfold claimed_value. rewrite (Ht i Hel), Hb.
      destruct (String.eqb _ _); [|reflexivity].
      destruct (Nat.eqb_spec (S i) (boundary argv)); simpl; [reflexivity|].
      rewrite (Ht (S i)) by lia. reflexivity.
    + apply IH. lia.
  - simpl. now rewrite Hlt.
Qed.

(** * The claims *)

(** ** find_argument *)

(** C2: [find_argument] returns "not found" exactly when no token at an
    index in [\[1, boundary)] is the flag (exactly, or as [name=...]); and
    the tokens at index 0 and at or after the boundary never affect the
    result: any vector with the same boundary and the same tokens in
    [\[1, boundary)] gives the same result. *)
Theorem find_argument_not_found (name : string) (argv : list string) :
  (find_argument name argv = None <->
   forall i, 1 <= i < boundary argv -> ~ token_matches name (arg_at argv i)) /\
  (forall argv', boundary argv' = boundary argv ->
   (forall i, 1 <= i < boundary argv -> arg_at argv' i = arg_at argv i) ->
   find_argument name argv' = find_argument name argv).
Proof.
  split.
  - unfold find_argument. rewrite find_argument_loop_none by lia. split.
    + intros H i Hi. apply code_match_false, H.
      split; [lia|]. apply flag_count_range; lia.
    + intros H j Hj. apply code_match_false, H.
      split; [lia|]. apply flag_count_range; lia.
  - intros argv' Hb Ht. unfold find_argument.
    rewrite (flag_count_same_boundary argv argv' Hb).
    apply find_argument_loop_agree; auto.
Qed.

Lemma find_argument_not_found_witness :
  (find_argument "x" ["prog"; "y"; "5"; "--"; "x"] = None /\
   (forall i, 1 <= i < boundary ["prog"; "y"; "5"; "--"; "x"] ->
    ~ token_matches "x" (arg_at ["prog"; "y"; "5"; "--"; "x"] i))) /\
  find_argument "x" ["x"; "x=1"; "--"; "y"] = find_argument "x" ["prog"; "x=1"; "--"; "x=2"; "z"].
Proof.
  split.
  - assert (H : find_argument "x" ["prog"; "y"; "5"; "--"; "x"] = None) by reflexivity.
    split; [exact H|]. apply (proj1 (find_argument_not_found "x" _)). exact H.
  - apply (proj2 (find_argument_not_found "x" ["prog"; "x=1"; "--"; "x=2"; "z"])).
    + reflexivity.
    + intros i Hi. simpl in Hi. assert (i = 1) as -> by lia. reflexivity.
Defined.

(** C3: when the token at [i] is the first eligible token matching the flag,
    it decides the result: an exact match that is the last eligible token or
    is followed by a token beginning with ['-'] (the ["--"] boundary
    included) gives the empty string; [name=v] gives [v]; an exact match
    followed by any other token gives that token. *)
Theorem find_argument_first_match (name : string) (argv : list string) (i : nat)
  (Hi : 1 <= i < boundary argv) (Hm : token_matches name (arg_at argv i))
  (Hfirst : forall j, 1 <= j < i -> ~ token_matches name (arg_at argv j)) :
  (arg_at argv i = name ->
   S i = boundary argv \/ starts_with_dash (arg_at argv (S i)) = true ->
   find_argument name argv = Some "") /\
  (arg_at argv i = name -> arg_at argv (S i) = "--" -> find_argument name argv = Some "") /\
  (forall v, arg_at argv i = name ++ "=" ++ v -> find_argument name argv = Some v) /\
  (arg_at argv i = name -> S i <> boundary argv ->
   starts_with_dash (arg_at argv (S i)) = false ->
   find_argument name argv = Some (arg_at argv (S i))).
Proof.
  rewrite (find_argument_first name argv i Hi Hm Hfirst). unfold claimed_value.
  split; [|split; [|split]].
  - intros Ht Hc. rewrite Ht, String.eqb_refl.
    destruct Hc as [Hc | Hc]; [rewrite Hc, Nat.eqb_refl | rewrite Hc, orb_true_r]; reflexivity.
  - intros Ht Hd. rewrite Ht, String.eqb_refl, Hd. simpl. now rewrite orb_true_r.
  - intros v Ht. rewrite Ht. rewrite ptr_add_inline.
    assert (Hne : String.eqb (name ++ "=" ++ v) name = false).
    { apply String.eqb_neq. intros E. apply (f_equal String.length) in E.
      rewrite str_length_append in E. simpl in E. lia. }
    now rewrite Hne.
  - intros Ht Hb Hd. rewrite Ht, String.eqb_refl, Hd.
    apply Nat.eqb_neq in Hb. now rewrite Hb.
Qed.

Lemma find_argument_first_match_witness :
  find_argument "x" ["prog"; "y"; "x"; "--"; "x=7"] = Some "" /\
  find_argument "x" ["prog"; "x=5"; "x"; "6"] = Some "5" /\
  find_argument "x" ["prog"; "x"; "6"; "x=5"] = Some "6".
Proof.
  split; [|split].
  - refine (proj1 (find_argument_first_match "x" ["prog"; "y"; "x"; "--"; "x=7"] 2
              ltac:(vm_compute; lia) (or_introl eq_refl) _) eq_refl (or_intror eq_refl)).
    intros j Hj Hc. assert (j = 1) as -> by lia. destruct Hc as [Hc | [v Hc]]; discriminate Hc.
  - refine (proj1 (proj2 (proj2 (find_argument_first_match "x" ["prog"; "x=5"; "x"; "6"] 1
              ltac:(vm_compute; lia) (or_intror (ex_intro _ "5" eq_refl)) _))) "5" eq_refl).
    intros j Hj. lia.
  - refine (proj2 (proj2 (proj2 (find_argument_first_match "x" ["prog"; "x"; "6"; "x=5"] 1
              ltac:(vm_compute; lia) (or_introl eq_refl) _))) eq_refl _ eq_refl).
    + intros j Hj. lia.
    + vm_compute. discriminate.
Defined.

(** C8: a bare flag token (the first eligible match) followed by an empty
    token [""] takes that token as its value: [find_argument] returns the
    empty string, as for a flag with no value, and [find_bool_argument]
    returns [true]. *)
Theorem find_argument_empty_next_token (name : string) (argv : list string) (i : nat)
  (Hi : 1 <= i < boundary argv) (Ht : arg_at argv i = name)
  (Hfirst : forall j, 1 <= j < i -> ~ token_matches name (arg_at argv j))
  (Hlen : S i < List.length argv) (Hnext : arg_at argv (S i) = "") :
  find_argument name argv = Some (arg_at argv (S i)) /\ find_argument name argv = Some "" /\
  find_bool_argument name argv = Ok true.
Proof.
  assert (Hne : argv <> []) by (destruct argv; simpl in Hlen; [lia | discriminate]).
  destruct (boundary_is_shape argv Hne) as (Hb & _ & He).
  assert (Hsb : S i <> boundary argv).
  { intros E. rewrite <- E in He. rewrite Hnext in He. discriminate (He Hlen). }
  assert (Hf : find_argument name argv = Some (arg_at argv (S i))).
  { apply (find_argument_first_match name argv i Hi (or_introl Ht) Hfirst); auto.
    now rewrite Hnext. }
  rewrite Hnext in Hf. split; [now rewrite Hnext | split; [exact Hf|]].
  unfold find_bool_argument. now rewrite Hf.
Qed.

Lemma find_argument_empty_next_token_witness :
  find_argument "-v" ["prog"; "-v"; ""; "rest"] = Some "" /\
  find_bool_argument "-v" ["prog"; "-v"; ""; "rest"] = Ok true.
Proof.
  pose proof (find_argument_empty_next_token "-v" ["prog"; "-v"; ""; "rest"] 1
                ltac:(vm_compute; lia) eq_refl ltac:(intros j Hj; lia)
                ltac:(vm_compute; lia) eq_refl) as (_ & H1 & H2).
  split; [exact H1 | exact H2].
Defined.

(** ** find_bool_argument *)

(** C6: absent flag gives [false]; a flag present with the empty value
    (bare, or [name=]) gives [true]; a present non-empty value is fatal,
    with [InvalidBooleanValue]. *)
Theorem find_bool_argument_spec (name : string) (argv : list string) :
  (find_argument name argv = None -> find_bool_argument name argv = Ok false) /\
  (find_argument name argv = Some "" -> find_bool_argument name argv = Ok true) /\
  (forall text, find_argument name argv = Some text -> text <> "" ->
   exists out, find_bool_argument name argv = Exit InvalidBooleanValue out).
Proof.
  unfold find_bool_argument. split; [|split].
  - intros H. now rewrite H.
  - intros H. now rewrite H.
  - intros text H Hne. rewrite H. destruct text as [|c t]; [congruence|].
    simpl. eexists. reflexivity.
Qed.

Lemma find_bool_argument_spec_witness :
  find_bool_argument "v" ["prog"] = Ok false /\
  find_bool_argument "v" ["prog"; "v="] = Ok true /\
  (exists out, find_bool_argument "v" ["prog"; "v=yes"] = Exit InvalidBooleanValue out).
Proof.
  split; [|split].
  - apply (proj1 (find_bool_argument_spec "v" ["prog"])). reflexivity.
  - apply (proj1 (proj2 (find_bool_argument_spec "v" ["prog"; "v="]))). reflexivity.
  - apply (proj2 (proj2 (find_bool_argument_spec "v" ["prog"; "v=yes"])) "yes");
      [reflexivity | discriminate].
Defined.

(** ** find_enum_argument *)

Lemma find_enum_loop_some text known k i :
  find_enum_loop text known k = Some i -> k <= i /\ nth_error known (i - k) = Some text.
Proof.
  revert k; induction known as [|v rest IH]; intros k H; simpl in H; [discriminate|].
  destruct (String.eqb_spec text v) as [->|Hne].
  - injection H as <-. rewrite Nat.sub_diag. split; [lia | reflexivity].
  - destruct (IH (S k) H) as [Hk Hn]. split; [lia|].
    replace (i - k) with (S (i - S k)) by lia. exact Hn.
Qed.

Lemma find_enum_loop_none text known k :
  find_enum_loop text known k = None <-> ~ In text known.
Proof.
  revert k; induction known as [|v rest IH]; intros k; simpl; [tauto|].
  destruct (String.eqb_spec text v) as [->|Hne].
  - split; [discriminate | tauto].
  - rewrite IH. split; [intros H [E|E]; [congruence | tauto] | tauto].
Qed.

(** C9: when the flag is present with the empty value, the empty text is
    looked up among [known_values] like any other value: the result is an
    index of [""] in [known_values], and when [""] is not one of them the
    call fails with [UnrecognizedEnumValue], whatever [default_index]. *)
Theorem find_enum_argument_empty_present (name : string) (default_index : Z)
  (known_values argv : list string) (H : find_argument name argv = Some "") :
  (forall r, find_enum_argument name default_index known_values argv = Ok r ->
   exists i, r = Z.of_nat i /\ nth_error known_values i = Some "") /\
  (~ In "" known_values ->
   exists out, find_enum_argument name default_index known_values argv
               = Exit UnrecognizedEnumValue out).
Proof.
  unfold find_enum_argument. rewrite H. split.
  - intros r Hr. destruct (find_enum_loop "" known_values 0) as [i|] eqn:E; [|discriminate].
    injection Hr as <-. apply find_enum_loop_some in E as [_ Hn].
    rewrite Nat.sub_0_r in Hn. now exists i.
  - intros Hn. apply (find_enum_loop_none _ _ 0) in Hn. rewrite Hn. eexists. reflexivity.
Qed.

Lemma find_enum_argument_empty_present_witness :
  exists out, find_enum_argument "--mode" 1 ["a"; "b"; "c"] ["prog"; "--mode"]
              = Exit UnrecognizedEnumValue out.
Proof.
  apply (proj2 (find_enum_argument_empty_present "--mode" 1 ["a"; "b"; "c"] ["prog"; "--mode"]
                  eq_refl)).
  simpl. intros [E | [E | [E | []]]]; discriminate E.
Defined.

(** ** find_float_argument *)

Lemma Qeq_bool_compare (x y : Q) :
  Qeq_bool x y = match (x ?= y)%Q with Eq => true | _ => false end.
Proof.
  destruct (Qeq_bool x y) eqn:E.
  - apply Qeq_bool_iff, Qeq_alt in E. now rewrite E.
  - destruct (x ?= y)%Q eqn:C; auto. apply Qeq_alt, Qeq_bool_iff in C. congruence.
Qed.

(** For ordered (non-NaN) values, [a < b] is [!(b <= a)]. *)
Lemma flt_lt_not_le (a b : float) :
  is_nan a = false -> is_nan b = false -> flt_lt a b = negb (flt_le b a).
Proof.
  intros Ha Hb. unfold flt_le.
  destruct a as [|[|]|x]; destruct b as [|[|]|y]; try discriminate; try reflexivity.
  simpl. unfold Qltb. rewrite Qeq_bool_compare, <- (Qcompare_antisym x y).
  destruct (x ?= y)%Q; reflexivity.
Qed.

(** [f != f] holds exactly for NaN. *)
Lemma flt_eq_self (f : float) : flt_eq f f = negb (is_nan f).
Proof.
  destruct f as [|b|q]; simpl; [reflexivity | now destruct b |].
  apply Qeq_bool_iff, Qeq_refl.
Qed.

Lemma strtof_empty : strtof "" = (FFin 0%Q, 0).
Proof. reflexivity. Qed.

Lemma c_is_nul_length (s : string) : c_is_nul s (String.length s) = true.
Proof. unfold c_is_nul. now rewrite c_at_length. Qed.

(** C1 (as amended): an empty present value is not treated as absent, the
    default plays no part; [strtof] performs no conversion on [""] and
    leaves the end pointer on the terminating NUL, so the parse check
    passes with the value 0: the call returns 0 when 0 passes the range
    check and fails with [FloatOutOfRange] otherwise.  It never fails with
    [InvalidFloatValue]. *)
Theorem find_float_argument_empty_value (name : string) (default_value min_value max_value : float)
  (argv : list string) (H : find_argument name argv = Some "") :
  (forall out, find_float_argument name default_value min_value max_value argv
               <> Exit InvalidFloatValue out) /\
  ((flt_lt (FFin 0) min_value || flt_gt (FFin 0) max_value) = true ->
   exists out, find_float_argument name default_value min_value max_value argv
               = Exit FloatOutOfRange out) /\
  ((flt_lt (FFin 0) min_value || flt_gt (FFin 0) max_value) = false ->
   find_float_argument name default_value min_value max_value argv = Ok (FFin 0)).
Proof.
  unfold find_float_argument. rewrite H, strtof_empty. simpl negb. cbv iota.
  rewrite orb_false_r.
  destruct (flt_lt (FFin 0) min_value || flt_gt (FFin 0) max_value).
  - split; [discriminate|]. split; [eexists; reflexivity | discriminate].
  - split; [discriminate|]. split; [discriminate | reflexivity].
Qed.

Lemma find_float_argument_empty_value_witness :
  find_float_argument "x" (FFin 1) (FFin 0) (FFin 10) ["prog"; "x="] = Ok (FFin 0).
Proof.
  apply (proj2 (proj2 (find_float_argument_empty_value "x" (FFin 1) (FFin 0) (FFin 10)
                         ["prog"; "x="] eq_refl))).
  reflexivity.
Defined.

(** C1 fails as stated: ["x="] gives the flag with the empty value, and the
    call returns 0 instead of failing with [InvalidFloatValue]. *)
Lemma find_float_argument_empty_value_counterexample :
  find_argument "x" ["prog"; "x="] = Some "" /\
  find_float_argument "x" (FFin 1) (FFin 0) (FFin 10) ["prog"; "x="] = Ok (FFin 0).
Proof. split; reflexivity. Qed.

(** C7 (as amended): a fully parsed present value is rejected with
    [FloatOutOfRange] exactly when [f < min], [f > max] or [f != f] (so
    always when it is NaN); when neither bound is NaN this means it is
    accepted iff [min <= f <= max] and [f] is not NaN.  An absent flag fails
    with [MissingRequiredValue] exactly when [default < min] or
    [default > max]; a NaN default fails both comparisons and is returned. *)
Theorem find_float_argument_checks (name : string) (default_value min_value max_value : float)
  (argv : list string) :
  (forall text f, find_argument name argv = Some text -> strtof text = (f, String.length text) ->
   ((flt_lt f min_value || flt_gt f max_value || negb (flt_eq f f)) = true ->
    exists out, find_float_argument name default_value min_value max_value argv
                = Exit FloatOutOfRange out) /\
   ((flt_lt f min_value || flt_gt f max_value || negb (flt_eq f f)) = false ->
    find_float_argument name default_value min_value max_value argv = Ok f) /\
   (is_nan f = true ->
    exists out, find_float_argument name default_value min_value max_value argv
                = Exit FloatOutOfRange out) /\
   (is_nan min_value = false -> is_nan max_value = false ->
    ((flt_le min_value f && flt_le f max_value && negb (is_nan f)) = true ->
     find_float_argument name default_value min_value max_value argv = Ok f) /\
    ((flt_le min_value f && flt_le f max_value && negb (is_nan f)) = false ->
     exists out, find_float_argument name default_value min_value max_value argv
                 = Exit FloatOutOfRange out))) /\
  (find_argument name argv = None ->
   ((flt_lt default_value min_value || flt_gt default_value max_value) = true ->
    exists out, find_float_argument name default_value min_value max_value argv
                = Exit MissingRequiredValue out) /\
   ((flt_lt default_value min_value || flt_gt default_value max_value) = false ->
    find_float_argument name default_value min_value max_value argv = Ok default_value) /\
   (is_nan default_value = true ->
    find_float_argument name default_value min_value max_value argv = Ok default_value)).
Proof.
  unfold find_float_argument. split.
  - intros text f Hf Hs. rewrite Hf, Hs, c_is_nul_length. simpl negb. cbv iota.
    assert (Hrej : (flt_lt f min_value || flt_gt f max_value || negb (flt_eq f f)) =
                   negb (flt_le min_value f && flt_le f max_value && negb (is_nan f))
                   \/ is_nan min_value = true \/ is_nan max_value = true).
    { destruct (is_nan min_value) eqn:Hmn; [right; now left|].
      destruct (is_nan max_value) eqn:Hmx; [right; now right|]. left.
      destruct (is_nan f) eqn:Hn.
      - destruct f; try discriminate. unfold flt_gt. simpl. rewrite andb_false_r.
        destruct max_value as [|[|]|]; reflexivity.
      - rewrite flt_eq_self, Hn. unfold flt_gt.
        rewrite (flt_lt_not_le f min_value), (flt_lt_not_le max_value f) by auto.
        destruct (flt_le min_value f), (flt_le f max_value); reflexivity. }
    split; [|split; [|split]].
    + intros E. rewrite E. eexists. reflexivity.
    + intros E. now rewrite E.
    + intros Hn. destruct f; try discriminate. simpl negb. rewrite !orb_true_r.
      eexists. reflexivity.
    + intros Hmn Hmx. destruct Hrej as [Hrej | [Hrej | Hrej]]; [| congruence | congruence].
      rewrite Hrej. split.
      * intros E. now rewrite E.
      * intros E. rewrite E. eexists. reflexivity.
  - intros Hf. rewrite Hf. split; [|split].
    + intros E. rewrite E. eexists. reflexivity.
    + intros E. now rewrite E.
    + intros Hn. destruct default_value; try discriminate. unfold flt_gt.
      destruct max_value as [|[|]|]; reflexivity.
Qed.

Lemma find_float_argument_checks_witness :
  (exists out, find_float_argument "p" (FFin 0) (FFin 0) (FFin 1) ["prog"; "p=nan"]
               = Exit FloatOutOfRange out) /\
  find_float_argument "p" (FFin 0) (FFin 0) (FFin 1) ["prog"; "p=0.5"] = Ok (FFin (5 # 10)) /\
  find_float_argument "p" FNaN (FFin 0) (FFin 1) ["prog"] = Ok FNaN.
Proof.
  split; [|split].
  - exact (proj1 (proj2 (proj2 (proj1 (find_float_argument_checks "p" (FFin 0) (FFin 0) (FFin 1)
             ["prog"; "p=nan"]) "nan" FNaN eq_refl eq_refl))) eq_refl).
  - exact (proj1 (proj2 (proj2 (proj2 (proj1 (find_float_argument_checks "p" (FFin 0) (FFin 0)
             (FFin 1) ["prog"; "p=0.5"]) "0.5" (FFin (5 # 10)) eq_refl eq_refl))) eq_refl eq_refl)
             eq_refl).
  - exact (proj2 (proj2 (proj2 (find_float_argument_checks "p" FNaN (FFin 0) (FFin 1) ["prog"])
             eq_refl)) eq_refl).
Defined.

(** C7 fails as stated for a NaN bound: with [min = NaN] the value 5 is
    accepted although [NaN <= 5] is false. *)
Lemma find_float_argument_checks_counterexample :
  flt_le FNaN (FFin 5) = false /\
  find_float_argument "x" (FFin 0) FNaN (FFin 10) ["prog"; "x=5"] = Ok (FFin 5).
Proof. split; reflexivity. Qed.

(** ** find_int_argument *)

Lemma get_none_iff (s : string) (k : nat) : String.get k s = None <-> String.length s <= k.
Proof.
  revert k; induction s as [|c s IH]; intros k; simpl; [split; auto; lia|].
  destruct k as [|k]; [split; [discriminate | lia]|]. rewrite IH. lia.
Qed.

Lemma c_is_nul_iff (s : string) (k : nat) : c_is_nul s k = true <-> String.length s <= k.
Proof.
  unfold c_is_nul, c_at. rewrite <- get_none_iff.
  destruct (String.get k s); split; congruence.
Qed.

Lemma substring_length (n m : nat) (s : string) :
  String.length (String.substring n m s) = Nat.min m (String.length s - n).
Proof.
  revert n m; induction s as [|c s IH]; intros [|n] [|m]; simpl; auto.
  - now rewrite IH, Nat.sub_0_r.
Qed.

Lemma ptr_add_length_eq (s : string) (k : nat) :
  String.length (ptr_add s k) = String.length s - k.
Proof. unfold ptr_add. rewrite substring_length. lia. Qed.

Lemma count_space_le (s : string) : count_space s <= String.length s.
Proof. induction s as [|c s IH]; simpl; [lia | destruct (is_space c); lia]. Qed.

Lemma take_sign_le (s : string) : snd (take_sign s) <= String.length s.
Proof.
  destruct s as [|c s]; simpl; [lia|].
  destruct (Ascii.eqb c "-"%char); [simpl; lia|]. destruct (Ascii.eqb c "+"%char); simpl; lia.
Qed.

Lemma take_digits_le (s : string) (acc : Z) (k : nat) :
  k <= snd (take_digits s acc k) <= k + String.length s.
Proof.
  revert acc k; induction s as [|c s IH]; intros acc k; simpl; [lia|].
  destruct (is_digit c); simpl; [specialize (IH (acc * 10 + digit_value c)%Z (S k)) |]; lia.
Qed.

Lemma strtol_unclamped_consumed (text : string) (z : Z) (m : nat) :
  strtol_unclamped text = Some (z, m) -> 1 <= m <= String.length text.
Proof.
  unfold strtol_unclamped.
  pose proof (count_space_le text) as Hw.
  destruct (take_sign (ptr_add text (count_space text))) as [neg sl] eqn:Es.
  pose proof (take_sign_le (ptr_add text (count_space text))) as Hs. rewrite Es in Hs. simpl in Hs.
  rewrite ptr_add_length_eq in Hs.
  destruct (take_digits (ptr_add (ptr_add text (count_space text)) sl) 0 0) as [v nd] eqn:Ed.
  pose proof (take_digits_le (ptr_add (ptr_add text (count_space text)) sl) 0 0) as Hd.
  rewrite Ed in Hd. simpl in Hd. rewrite !ptr_add_length_eq in Hd.
  destruct (Nat.eqb_spec nd 0); [discriminate|]. intros H. injection H as _ <-. lia.
Qed.

Lemma strtol_consumed_le (text : string) : snd (strtol text) <= String.length text.
Proof.
  unfold strtol. destruct (strtol_unclamped text) as [[z m]|] eqn:E; simpl; [|lia].
  apply strtol_unclamped_consumed in E. lia.
Qed.

Lemma to_int32_small (z : Z) : in_int32 z -> to_int32 z = z.
Proof.
  unfold in_int32, to_int32. intros H. rewrite Z.mod_small by lia. lia.
Qed.

(** The present, non-empty branch of [find_int_argument], by the result of
    [strtol]. *)
Lemma find_int_argument_text name d mn mx argv text :
  find_argument name argv = Some text -> text <> "" ->
  find_int_argument name d mn mx argv =
  if negb (Nat.eqb (snd (strtol text)) (String.length text)) then
    Exit InvalidIntegerValue
      [red ++ "Got non-integer value '" ++ text ++ "' for integer flag '" ++ name
           ++ "'." ++ reset ++ nl]
  else if (fst (strtol text) <? mn)%Z || (fst (strtol text) >? mx)%Z then
    Exit IntegerOutOfRange
      [red ++ "Integer value '" ++ text ++ "' for flag '" ++ name ++ "' doesn't satisfy "
           ++ show_Z mn ++ " <= " ++ show_Z (fst (strtol text)) ++ " <= " ++ show_Z mx
           ++ "." ++ reset ++ nl]
  else Ok (to_int32 (fst (strtol text))).
Proof.
  intros Hf Hne. unfold find_int_argument. rewrite Hf.
  assert (Hz : c_is_nul text 0 = false) by (destruct text; [congruence | reflexivity]).
  rewrite Hz. pose proof (strtol_consumed_le text) as Hle.
  destruct (strtol text) as [i p]. simpl in *.
  assert (Hp : c_is_nul text p = Nat.eqb p (String.length text)).
  { destruct (c_is_nul text p) eqn:E.
    - apply c_is_nul_iff in E. symmetry. apply Nat.eqb_eq. lia.
    - symmetry. apply Nat.eqb_neq. intros ->. now rewrite c_is_nul_length in E. }
  now rewrite Hp.
Qed.

(** C5: absent or empty: [MissingRequiredValue] when the default lies
    outside [\[min, max\]], the default otherwise.  Present with text: when
    [strtol] does not consume the whole text, [InvalidIntegerValue]; when
    the parsed value lies outside [\[min, max\]], [IntegerOutOfRange];
    otherwise the parsed value.  ([min] and [max] are C [int]s.) *)
Theorem find_int_argument_spec (name : string) (default_value min_value max_value : Z)
  (argv : list string) (Hmin : in_int32 min_value) (Hmax : in_int32 max_value) :
  ((find_argument name argv = None \/ find_argument name argv = Some "") ->
   ((default_value < min_value \/ default_value > max_value)%Z ->
    exists out, find_int_argument name default_value min_value max_value argv
                = Exit MissingRequiredValue out) /\
   ((min_value <= default_value <= max_value)%Z ->
    find_int_argument name default_value min_value max_value argv = Ok default_value)) /\
  (forall text, find_argument name argv = Some text -> text <> "" ->
   (snd (strtol text) <> String.length text ->
    exists out, find_int_argument name default_value min_value max_value argv
                = Exit InvalidIntegerValue out) /\
   (snd (strtol text) = String.length text ->
    (fst (strtol text) < min_value \/ fst (strtol text) > max_value)%Z ->
    exists out, find_int_argument name default_value min_value max_value argv
                = Exit IntegerOutOfRange out) /\
   (snd (strtol text) = String.length text ->
    (min_value <= fst (strtol text) <= max_value)%Z ->
    find_int_argument name default_value min_value max_value argv = Ok (fst (strtol text)))).
Proof.
  split.
  - intros Habs. unfold find_int_argument.
    destruct Habs as [H | H]; rewrite H; simpl c_is_nul; cbv iota zeta; split.
    1, 3: intros Hd; replace ((default_value <? min_value)%Z || (default_value >? max_value)%Z)
                     with true by lia; eexists; reflexivity.
    all: intros Hd; replace ((default_value <? min_value)%Z || (default_value >? max_value)%Z)
                    with false by lia; reflexivity.
  - intros text Hf Hne. rewrite (find_int_argument_text _ _ _ _ _ _ Hf Hne). split; [|split].
    + intros Hp. apply Nat.eqb_neq in Hp. rewrite Hp. eexists. reflexivity.
    + intros Hp Hr. rewrite Hp, Nat.eqb_refl. simpl negb. cbv iota.
      replace ((fst (strtol text) <? min_value)%Z || (fst (strtol text) >? max_value)%Z)
        with true by lia. eexists. reflexivity.
    + intros Hp Hr. rewrite Hp, Nat.eqb_refl. simpl negb. cbv iota.
      replace ((fst (strtol text) <? min_value)%Z || (fst (strtol text) >? max_value)%Z)
        with false by lia.
      rewrite to_int32_small; [reflexivity|]. unfold in_int32 in *. lia.
Qed.

Lemma find_int_argument_spec_witness :
  (exists out, find_int_argument "n" 20 0 10 ["prog"] = Exit MissingRequiredValue out) /\
  (exists out, find_int_argument "n" 0 0 10 ["prog"; "n=7x"] = Exit InvalidIntegerValue out) /\
  (exists out, find_int_argument "n" 0 0 10 ["prog"; "n=11"] = Exit IntegerOutOfRange out) /\
  find_int_argument "n" 0 0 10 ["prog"; "n"; "7"] = Ok 7%Z.
Proof.
  assert (Hb : in_int32 0) by (unfold in_int32; lia).
  assert (Ht : in_int32 10) by (unfold in_int32; lia).
  split; [|split; [|split]].
  - apply (proj1 (proj1 (find_int_argument_spec "n" 20 0 10 ["prog"] Hb Ht) (or_introl eq_refl))).
    lia.
  - apply (proj1 (proj2 (find_int_argument_spec "n" 0 0 10 ["prog"; "n=7x"] Hb Ht) "7x"
             eq_refl ltac:(discriminate))).
    vm_compute. discriminate.
  - apply (proj1 (proj2 (proj2 (find_int_argument_spec "n" 0 0 10 ["prog"; "n=11"] Hb Ht) "11"
             eq_refl ltac:(discriminate)))); vm_compute; [reflexivity | right; reflexivity].
  - apply (proj2 (proj2 (proj2 (find_int_argument_spec "n" 0 0 10 ["prog"; "n"; "7"] Hb Ht) "7"
             eq_refl ltac:(discriminate)))); vm_compute; [reflexivity | split; discriminate].
Defined.

(** C10: the range check is on the parsed [long], before the narrowing to
    [int]: a text that [strtol] reads in full as the integer [z] (of any
    magnitude) outside [\[min, max\]] gives [IntegerOutOfRange], and any
    returned value is [z] itself, within [\[min, max\]]. *)
Theorem find_int_argument_no_wrap (name : string) (default_value min_value max_value : Z)
  (argv : list string) (text : string) (z : Z)
  (Hmin : in_int32 min_value) (Hmax : in_int32 max_value)
  (Hf : find_argument name argv = Some text)
  (Hp : strtol_unclamped text = Some (z, String.length text)) :
  ((z < min_value \/ z > max_value)%Z ->
   exists out, find_int_argument name default_value min_value max_value argv
               = Exit IntegerOutOfRange out) /\
  (forall r, find_int_argument name default_value min_value max_value argv = Ok r ->
   r = z /\ (min_value <= z <= max_value)%Z).
Proof.
  assert (Hne : text <> "").
  { intros ->. apply strtol_unclamped_consumed in Hp. simpl in Hp. lia. }
  assert (Hs : strtol text = (clamp_long z, String.length text)) by (unfold strtol; now rewrite Hp).
  rewrite (find_int_argument_text _ _ _ _ _ _ Hf Hne), Hs. simpl fst. simpl snd.
  rewrite Nat.eqb_refl. simpl negb. cbv iota.
  unfold in_int32, clamp_long, LONG_MIN, LONG_MAX in *. split.
  - intros Hr. replace ((Z.max (- 2 ^ 63) (Z.min (2 ^ 63 - 1) z) <? min_value)%Z
                        || (Z.max (- 2 ^ 63) (Z.min (2 ^ 63 - 1) z) >? max_value)%Z)
      with true by lia. eexists. reflexivity.
  - intros r.
    destruct ((Z.max (- 2 ^ 63) (Z.min (2 ^ 63 - 1) z) <? min_value)%Z
              || (Z.max (- 2 ^ 63) (Z.min (2 ^ 63 - 1) z) >? max_value)%Z) eqn:E;
      [discriminate|].
    intros Hr. injection Hr as <-.
    assert (Hin : (min_value <= z <= max_value)%Z) by lia.
    rewrite to_int32_small by (unfold in_int32; lia). lia.
Qed.

Lemma find_int_argument_no_wrap_witness :
  exists out, find_int_argument "n" 0 0 10 ["prog"; "n=99999999999999999999999"]
              = Exit IntegerOutOfRange out.
Proof.
  apply (proj1 (find_int_argument_no_wrap "n" 0 0 10 ["prog"; "n=99999999999999999999999"]
                  "99999999999999999999999" 99999999999999999999999
                  ltac:(unfold in_int32; lia) ltac:(unfold in_int32; lia) eq_refl
                  ltac:(vm_compute; reflexivity))).
  lia.
Defined.

(** ** check_for_unknown_arguments *)

Lemma first_known_match_some (known : list string) (tok k : string) :
  first_known_match known tok = Some k <-> first_match known tok k.
Proof.
  induction known as [|k0 rest IH]; simpl.
  - split; [discriminate|]. intros (pre & post & E & _). destruct pre; discriminate E.
  - destruct (known_matches tok k0) eqn:Hm.
    + apply code_match_spec in Hm. split.
      * intros H. injection H as <-. exists [], rest. split; [reflexivity | split; auto].
      * intros (pre & post & E & Hk & Hf). destruct pre as [|k1 pre].
        -- injection E as <- _. reflexivity.
        -- injection E as <- _. inversion Hf. contradiction.
    + apply code_match_false in Hm. rewrite IH. split.
      * intros (pre & post & E & Hk & Hf). exists (k0 :: pre), post.
        split; [now rewrite E | split; auto].
      * intros (pre & post & E & Hk & Hf). destruct pre as [|k1 pre].
        -- injection E as <- _. contradiction.
        -- injection E as <- E. inversion Hf; subst. exists pre, post. auto.
Qed.

Lemma first_known_match_none (known : list string) (tok : string) :
  first_known_match known tok = None <-> forall k, In k known -> ~ token_matches k tok.
Proof.
  induction known as [|k0 rest IH]; simpl; [split; auto; tauto|].
  destruct (known_matches tok k0) eqn:Hm.
  - apply code_match_spec in Hm. split; [discriminate|]. intros H. exfalso. eapply H; eauto.
  - apply code_match_false in Hm. rewrite IH. split.
    + intros H k [<-|Hk]; auto.
    + intros H k Hk. apply H. auto.
Qed.

Lemma first_match_unique (known : list string) (tok k1 k2 : string) :
  first_match known tok k1 -> first_match known tok k2 -> k1 = k2.
Proof.
  intros H1 H2. apply first_known_match_some in H1, H2. rewrite H1 in H2. congruence.
Qed.

Lemma scan_accepts_inv (known argv : list string) (i : nat) :
  scan_accepts known argv i -> i < boundary argv ->
  exists k, first_match known (arg_at argv i) k /\
    ((~ skips_value argv i k /\ scan_accepts known argv (S i)) \/
     (skips_value argv i k /\ scan_accepts known argv (S (S i)))).
Proof. intros H Hi. inversion H; subst; [lia | eauto | eauto]. Qed.

(** The code's test for consuming the next token, at an eligible token. *)
Lemma skip_test_iff (argv : list string) (i : nat) (k : string) :
  1 <= i < boundary argv -> token_matches k (arg_at argv i) ->
  (c_is_nul (arg_at argv i) (String.length k) && Nat.ltb i (List.length argv - 1)
   && negb (starts_with_dash (arg_at argv (S i))) = true <-> skips_value argv i k).
Proof.
  intros Hi Hm. assert (Hne : argv <> []) by (destruct argv; simpl in Hi; [lia | discriminate]).
  destruct (boundary_is_shape argv Hne) as (Hb & _ & He).
  unfold skips_value. rewrite !andb_true_iff, Nat.ltb_lt, negb_true_iff, c_is_nul_iff.
  assert (Hex : String.length (arg_at argv i) <= String.length k <-> arg_at argv i = k).
  { destruct Hm as [Ht | [v Ht]]; rewrite Ht; [split; auto|].
    rewrite str_length_append. simpl. split; [lia|].
    intros E. apply (f_equal String.length) in E. rewrite str_length_append in E. simpl in E. lia. }
  rewrite Hex. split.
  - intros [[Hk Hl] Hd]. split; [exact Hk|]. split; [|exact Hd].
    destruct (Nat.eq_dec (S i) (boundary argv)) as [E|]; [|lia].
    rewrite <- E in He. rewrite He in Hd by lia. discriminate.
  - intros (Hk & Hl & Hd). repeat split; auto; lia.
Qed.

Lemma check_loop_scan (known : list string) (for_mode : option string) (argv : list string) :
  forall fuel i, 1 <= i <= boundary argv -> boundary argv < i + fuel ->
  (check_loop known for_mode argv i fuel = Ok tt <-> scan_accepts known argv i) /\
  (forall e out, check_loop known for_mode argv i fuel = Exit e out ->
   e = UnrecognizedArgument /\
   exists j, scan_rejects known argv i j /\ i <= j < boundary argv /\
             out = unrecognized_message known for_mode (arg_at argv j)).
Proof.
  assert (Hne : forall i, 1 <= i <= boundary argv -> argv <> [])
    by (intros i Hi E; subst argv; simpl in Hi; lia).
  induction fuel as [|fuel IH]; intros i Hi Hf; [lia|].
  destruct (boundary_is_shape argv (Hne i Hi)) as (Hb & Ha & He).
  simpl. destruct (Nat.eq_dec i (boundary argv)) as [Eb|Eb].
  - (* the scan is at the boundary *)
    assert (Hend : Nat.ltb i (List.length argv) = false \/
                   (Nat.ltb i (List.length argv) = true /\ arg_at argv i = "--")).
    { destruct (Nat.ltb_spec i (List.length argv)); [right | left; reflexivity].
      split; [reflexivity|]. rewrite Eb. apply He. lia. }
    assert (Hacc : scan_accepts known argv i) by (apply scan_done; lia).
    destruct Hend as [E | [E Hd]]; rewrite E; [|rewrite Hd; simpl];
      (split; [split; auto | intros e out H; discriminate H]).
  - assert (Hlt : i < boundary argv) by lia.
    assert (Hl : Nat.ltb i (List.length argv) = true) by (apply Nat.ltb_lt; lia).
    assert (Hd : String.eqb (arg_at argv i) "--" = false) by (apply String.eqb_neq, Ha; lia).
    rewrite Hl, Hd.
    destruct (first_known_match known (arg_at argv i)) as [k|] eqn:Hk.
    + apply first_known_match_some in Hk as Hfm.
      assert (Hmk : token_matches k (arg_at argv i))
        by (destruct Hfm as (pre & post & _ & Hm & _); exact Hm).
      pose proof (skip_test_iff argv i k ltac:(lia) Hmk) as Hs.
      destruct (c_is_nul (arg_at argv i) (String.length k) && Nat.ltb i (List.length argv - 1)
                && negb (starts_with_dash (arg_at argv (S i)))) eqn:Hskip.
      * assert (Hsv : skips_value argv i k) by (now apply Hs).
        destruct Hsv as (_ & Hsb & _).
        destruct (IH (S (S i)) ltac:(lia) ltac:(lia)) as [IHok IHex]. split.
        -- rewrite IHok. split; [intros H; eapply scan_value; eauto; now apply Hs|].
           intros H. destruct (scan_accepts_inv known argv i H Hlt)
             as (k' & Hf' & [[Hn _] | [_ Ha']]); [|exact Ha'].
           rewrite (first_match_unique known _ k' k Hf' Hfm) in Hn.
           exfalso. apply Hn, Hs. reflexivity.
        -- intros e out H. destruct (IHex e out H) as (-> & j & Hj & Hr & ->).
           split; [reflexivity|]. exists j. split; [eapply reject_value; eauto; now apply Hs | split; [lia | reflexivity]].
      * assert (Hsv : ~ skips_value argv i k) by (intros Hc; apply Hs in Hc; congruence).
        destruct (IH (S i) ltac:(lia) ltac:(lia)) as [IHok IHex]. split.
        -- rewrite IHok. split; [intros H; eapply scan_flag; eauto|].
           intros H. destruct (scan_accepts_inv known argv i H Hlt)
             as (k' & Hf' & [[_ Ha'] | [Hs' _]]); [exact Ha'|].
           rewrite (first_match_unique known _ k' k Hf' Hfm) in Hs'. contradiction.
        -- intros e out H. destruct (IHex e out H) as (-> & j & Hj & Hr & ->).
           split; [reflexivity|]. exists j. split; [eapply reject_flag; eauto | split; [lia | reflexivity]].
    + pose proof (proj1 (first_known_match_none _ _) Hk) as Hnone. clear Hk. split.
      * split; [discriminate|]. intros H.
        destruct (scan_accepts_inv known argv i H Hlt) as (k' & (pre & post & E & Hm & _) & _).
        exfalso. apply (Hnone k'); auto. rewrite E. apply in_or_app. right. left. reflexivity.
      * intros e out H. injection H as <- <-. split; [reflexivity|].
        exists i. split; [apply reject_here; auto; exact Hnone | split; [lia | reflexivity]].
Qed.

(** C4 (as amended): the check scans the tokens from index 1 up to the
    boundary, left to right, classifying each by the first known name (in
    list order) that it matches, exactly or as [known=value].  A bare match
    followed by an eligible word not beginning with ['-'] consumes that
    word unvalidated.  The call returns normally iff the scan reaches the
    boundary; otherwise it exits with [UnrecognizedArgument] at the first
    unmatched token of the scan, printing that token, the mode label when
    one is given, and every known name. *)
Theorem check_for_unknown_arguments_scan (known_arguments : list string)
  (for_mode : option string) (argv : list string) :
  (check_for_unknown_arguments known_arguments for_mode argv = Ok tt <->
   scan_accepts known_arguments argv 1) /\
  (forall e out, check_for_unknown_arguments known_arguments for_mode argv = Exit e out ->
   e = UnrecognizedArgument /\
   exists j, scan_rejects known_arguments argv 1 j /\ 1 <= j < boundary argv /\
     In (red ++ "Unrecognized command line argument " ++ arg_at argv j
             ++ (match for_mode with None => "" | Some m => " for mode " ++ m end)
             ++ "." ++ nl) out /\
     (forall k, In k known_arguments -> In ("    " ++ k ++ nl) out)).
Proof.
  destruct argv as [|prog rest].
  - split; [split; [intros _; apply scan_done; simpl; lia | reflexivity]|].
    intros e out H. discriminate H.
  - pose proof (boundary_is_shape (prog :: rest) ltac:(discriminate)) as (Hb & _).
    destruct (check_loop_scan known_arguments for_mode (prog :: rest) (List.length (prog :: rest)) 1
                ltac:(lia) ltac:(lia)) as [Hok Hex].
    split; [exact Hok|]. intros e out H.
    destruct (Hex e out H) as (-> & j & Hr & Hj & ->). split; [reflexivity|].
    exists j. split; [exact Hr | split; [lia|]]. unfold unrecognized_message. split.
    + destruct for_mode as [m|]; simpl; left; [reflexivity | reflexivity].
    + intros k Hk. destruct for_mode; simpl; right; right;
        apply in_or_app; left; apply in_map_iff; exists k; auto.
Qed.

Lemma check_for_unknown_arguments_scan_witness :
  check_for_unknown_arguments ["--flag"; "--out"] None
    ["prog"; "--out"; "file"; "--flag=3"; "--"; "zzz"] = Ok tt /\
  (exists out, check_for_unknown_arguments ["--flag"] (Some "sample") ["prog"; "--other"]
               = Exit UnrecognizedArgument out).
Proof.
  split.
  - apply (proj1 (check_for_unknown_arguments_scan ["--flag"; "--out"] None
                    ["prog"; "--out"; "file"; "--flag=3"; "--"; "zzz"])).
    apply (scan_value _ _ 1 "--out"); [vm_compute; lia | | |].
    + exists ["--flag"], []. split; [reflexivity | split; [now left|]].
      constructor; [|constructor]. intros [E | [v E]]; discriminate E.
    + split; [reflexivity | split; [vm_compute; lia | reflexivity]].
    + apply (scan_flag _ _ 3 "--flag"); [vm_compute; lia | | |].
      * exists [], ["--out"]. split; [reflexivity | split; [right; now exists "3" | constructor]].
      * intros (E & _). discriminate E.
      * apply scan_done. vm_compute. lia.
  - destruct (check_for_unknown_arguments ["--flag"] (Some "sample") ["prog"; "--other"])
      as [u|e out] eqn:E; [vm_compute in E; discriminate E|].
    exists out. f_equal. exact (proj1 (proj2 (check_for_unknown_arguments_scan _ _ _) e out E)).
Defined.

(** C4 fails as stated: with known names ["a"] and ["a=b"], the token
    ["a=b"] is exactly a known name, and ["zzz"] follows it and does not
    begin with ['-'], so every eligible token meets one of the claim's
    conditions; but the code classifies ["a=b"] by the first known name it
    matches, ["a"], as an inline value, consumes nothing, and rejects
    ["zzz"]. *)
Lemma check_for_unknown_arguments_scan_counterexample :
  (forall i, 1 <= i < boundary ["p"; "a=b"; "zzz"] ->
   In (arg_at ["p"; "a=b"; "zzz"] i) ["a"; "a=b"] \/
   (exists k v, In k ["a"; "a=b"] /\ arg_at ["p"; "a=b"; "zzz"] i = k ++ "=" ++ v) \/
   (2 <= i /\ In (arg_at ["p"; "a=b"; "zzz"] (i - 1)) ["a"; "a=b"] /\
    starts_with_dash (arg_at ["p"; "a=b"; "zzz"] i) = false)) /\
  exists out, check_for_unknown_arguments ["a"; "a=b"] None ["p"; "a=b"; "zzz"]
              = Exit UnrecognizedArgument out.
Proof.
  split.
  - intros i Hi. simpl in Hi. destruct (Nat.eq_dec i 1) as [->|].
    + left. simpl. auto.
    + assert (i = 2) as -> by lia. right. right. simpl. split; [lia | split; auto].
  - eexists. reflexivity.
Qed.

(** * Further properties of [arg_parse.cc] *)

(** ** Shared lemmas *)

Lemma find_argument_none_iff (name : string) (argv : list string) :
  find_argument name argv = None <->
  forall i, 1 <= i < boundary argv -> ~ token_matches name (arg_at argv i).
Proof.
  unfold find_argument. rewrite find_argument_loop_none by lia. split.
  - intros H i Hi. apply code_match_false, H. split; [lia|]. apply flag_count_range; lia.
  - intros H j Hj. apply code_match_false, H. split; [lia|]. apply flag_count_range; lia.
Qed.

(** Either no token in [\[1, n)] matches, or there is a first one. *)
Lemma first_matching_token (name : string) (argv : list string) (n : nat) :
  (forall i, 1 <= i < n -> ~ token_matches name (arg_at argv i)) \/
  exists k, 1 <= k < n /\ token_matches name (arg_at argv k) /\
            forall j, 1 <= j < k -> ~ token_matches name (arg_at argv j).
Proof.
  induction n as [|n IH]; [left; intros; lia|].
  destruct IH as [Hnone | (k & Hk & Hm & Hf)].
  - destruct (code_match name (arg_at argv n)) eqn:Hc.
    + destruct (Nat.eq_dec n 0) as [->|Hn].
      * left. intros i Hi. lia.
      * right. exists n. split; [lia|]. split; [now apply code_match_spec|].
        intros j Hj. apply Hnone. lia.
    + left. intros i Hi. destruct (Nat.eq_dec i n) as [->|].
      * now apply code_match_false.
      * apply Hnone. lia.
  - right. exists k. split; [lia | auto].
Qed.

Lemma scan_rejects_unmatched (known argv : list string) (i j : nat) :
  scan_rejects known argv i j -> forall k, In k known -> ~ token_matches k (arg_at argv j).
Proof. induction 1; auto. Qed.

Lemma check_loop_at_boundary (known : list string) (for_mode : option string)
  (argv : list string) (fuel : nat) :
  argv <> [] -> check_loop known for_mode argv (boundary argv) (S fuel) = Ok tt.
Proof.
  intros Hne. destruct (boundary_is_shape argv Hne) as (Hb & _ & He). simpl.
  destruct (Nat.ltb_spec (boundary argv) (List.length argv)) as [Hlt|Hge]; [|reflexivity].
  rewrite (He Hlt). reflexivity.
Qed.

(** Two vectors with the same boundary and the same eligible tokens run the
    same check, whatever the (sufficient) fuel. *)
Lemma check_loop_agree (known : list string) (for_mode : option string)
  (argv argv' : list string) :
  boundary argv' = boundary argv ->
  (forall i, 1 <= i < boundary argv -> arg_at argv' i = arg_at argv i) ->
  forall fuel fuel' i, 1 <= i <= boundary argv ->
  boundary argv < i + fuel -> boundary argv < i + fuel' ->
  check_loop known for_mode argv' i fuel' = check_loop known for_mode argv i fuel.
Proof.
  intros Hb Ht. induction fuel as [|fuel IH]; intros fuel' i Hi Hf Hf'; [lia|].
  destruct fuel' as [|fuel']; [lia|].
  assert (Hne : argv <> []) by (intros E; subst argv; simpl in Hi; lia).
  assert (Hne' : argv' <> []) by (intros E; subst argv'; simpl in Hb; lia).
  destruct (Nat.eq_dec i (boundary argv)) as [->|Hib].
  - rewrite check_loop_at_boundary by exact Hne.
    rewrite <- Hb. apply check_loop_at_boundary. exact Hne'.
  - destruct (boundary_is_shape argv Hne) as (Hs & Ha & _).
    destruct (boundary_is_shape argv' Hne') as (Hs' & Ha' & _).
    assert (Hel : 1 <= i < boundary argv) by lia.
    simpl.
    assert (Hl : Nat.ltb i (List.length argv) = true) by (apply Nat.ltb_lt; lia).
    assert (Hl' : Nat.ltb i (List.length argv') = true) by (apply Nat.ltb_lt; lia).
    assert (Hd : String.eqb (arg_at argv i) "--" = false) by (apply String.eqb_neq, Ha; lia).
    rewrite Hl, Hl', (Ht i Hel), Hd.
    destruct (first_known_match known (arg_at argv i)) as [k|] eqn:Hk; [|reflexivity].
    apply first_known_match_some in Hk.
    assert (Hmk : token_matches k (arg_at argv i))
      by (destruct Hk as (pre & post & _ & Hm & _); exact Hm).
    pose proof (skip_test_iff argv i k Hel Hmk) as Hs1.
    pose proof (skip_test_iff argv' i k ltac:(lia) ltac:(rewrite (Ht i Hel); exact Hmk)) as Hs2.
    rewrite (Ht i Hel) in Hs2.
    assert (Hsame : skips_value argv' i k <-> skips_value argv i k).
    { unfold skips_value. rewrite Hb, (Ht i Hel). split.
      - intros (E & Hl2 & Hd2). rewrite (Ht (S i)) in Hd2 by lia. auto.
      - intros (E & Hl2 & Hd2). rewrite (Ht (S i)) by lia. auto. }
    destruct (c_is_nul (arg_at argv i) (String.length k) && Nat.ltb i (List.length argv - 1)
              && negb (starts_with_dash (arg_at argv (S i)))) eqn:B1.
    + assert (Hsk : skips_value argv i k) by (now apply Hs1).
      assert (B2 : c_is_nul (arg_at argv i) (String.length k) && Nat.ltb i (List.length argv' - 1)
                   && negb (starts_with_dash (arg_at argv' (S i))) = true)
        by (apply Hs2, Hsame, Hsk).
      rewrite B2. destruct Hsk as (_ & Hsb & _). apply IH; lia.
    + assert (Hsk : ~ skips_value argv i k) by (intros C; apply Hs1 in C; congruence).
      assert (B2 : c_is_nul (arg_at argv i) (String.length k) && Nat.ltb i (List.length argv' - 1)
                   && negb (starts_with_dash (arg_at argv' (S i))) = false).
      { destruct (c_is_nul (arg_at argv i) (String.length k) && Nat.ltb i (List.length argv' - 1)
                  && negb (starts_with_dash (arg_at argv' (S i)))) eqn:C; [|reflexivity].
        exfalso. apply Hsk, Hsame, Hs2. reflexivity. }
      rewrite B2. apply IH; lia.
Qed.

Lemma find_enum_loop_first (text : string) (known : list string) (k i : nat) :
  find_enum_loop text known k = Some i ->
  forall j, j < i - k -> nth_error known j <> Some text.
Proof.
  revert k; induction known as [|v rest IH]; intros k H j Hj; simpl in H; [discriminate|].
  destruct (String.eqb_spec text v) as [->|Hne].
  - injection H as <-. lia.
  - destruct j as [|j]; simpl.
    + intros E. injection E as E. congruence.
    + apply (IH (S k) H). lia.
Qed.

Lemma enum_listing_line (known : list string) (d : Z) (k i : nat) (v : string) :
  nth_error known i = Some v ->
  In ("    '" ++ v ++ "'" ++ (if (Z.of_nat (k + i) =? d)%Z then " (default)" else "") ++ nl)
     (enum_listing known d k).
Proof.
  revert k i; induction known as [|w rest IH]; intros k i H; [destruct i; discriminate|].
  destruct i as [|i]; simpl in H |- *.
  - injection H as ->. left. now rewrite Nat.add_0_r.
  - right. replace (k + S i) with (S k + i) by lia. now apply IH.
Qed.

(** ** Properties *)

(** [require_find_argument] returns exactly what [find_argument] finds,
    the empty value included; it fails, with [MissingArgument] and a
    message naming the flag, exactly when no token before the boundary
    matches the flag. *)
Theorem require_find_argument_spec (name : string) (argv : list string) :
  (forall v, require_find_argument name argv = Ok v <-> find_argument name argv = Some v) /\
  ((exists e out, require_find_argument name argv = Exit e out) <->
   forall i, 1 <= i < boundary argv -> ~ token_matches name (arg_at argv i)) /\
  (forall e out, require_find_argument name argv = Exit e out ->
   e = MissingArgument /\
   out = [red ++ "Missing command line argument: '" ++ name ++ "'" ++ reset ++ nl]).
Proof.
  rewrite <- find_argument_none_iff. unfold require_find_argument.
  destruct (find_argument name argv) as [r|]; split; [|split| |split].
  - intros v. split; intros H; injection H as ->; reflexivity.
  - split; [intros (e & out & H); discriminate | discriminate].
  - intros e out H. discriminate.
  - intros v. split; discriminate.
  - split; [reflexivity | eauto].
  - intros e out H. injection H as <- <-. auto.
Qed.

(** Where a value of [find_argument] comes from: the first token before
    the boundary that matches the flag is either [name=value], and the
    value is the text after that first ['='] (which may itself hold ['=']
    or begin with ['-']); or it is the bare flag, and the value is empty or
    the next token, which is then also before the boundary and does not
    begin with ['-']. *)
Theorem find_argument_value_source (name : string) (argv : list string) (v : string) :
  find_argument name argv = Some v ->
  exists i, 1 <= i < boundary argv /\
    (forall j, 1 <= j < i -> ~ token_matches name (arg_at argv j)) /\
    (arg_at argv i = name ++ "=" ++ v \/
     (arg_at argv i = name /\ v = "") \/
     (arg_at argv i = name /\ S i < boundary argv /\ arg_at argv (S i) = v /\
      starts_with_dash v = false)).
Proof.
  intros H.
  destruct (first_matching_token name argv (boundary argv)) as [Hn | (k & Hk & Hm & Hf)].
  - apply find_argument_none_iff in Hn. congruence.
  - exists k. split; [exact Hk|]. split; [exact Hf|].
    rewrite (find_argument_first name argv k Hk Hm Hf) in H. unfold claimed_value in H.
    destruct (String.eqb_spec (arg_at argv k) name) as [Ht|Ht].
    + right. destruct (Nat.eqb_spec (S k) (boundary argv)) as [Hb|Hb]; simpl in H.
      * left. injection H as <-. auto.
      * destruct (starts_with_dash (arg_at argv (S k))) eqn:Hd.
        -- left. injection H as <-. auto.
        -- right. injection H as <-. repeat split; auto; lia.
    + left. destruct Hm as [Hm | (w & Hw)]; [congruence|].
      rewrite Hw in H |- *. rewrite ptr_add_inline in H. injection H as <-. reflexivity.
Qed.

(** [find_enum_argument] with the flag present: the result is the index of
    the first occurrence of the text among [known_values] (an earlier
    duplicate wins); a text that is not a known value fails with
    [UnrecognizedEnumValue], whatever [default_index], and the message
    lists every known value, the one at [default_index] marked
    [" (default)"]. *)
Theorem find_enum_argument_first_index (name : string) (default_index : Z)
  (known_values argv : list string) (text : string) :
  find_argument name argv = Some text ->
  (forall r, find_enum_argument name default_index known_values argv = Ok r <->
   exists i, r = Z.of_nat i /\ nth_error known_values i = Some text /\
             forall j, j < i -> nth_error known_values j <> Some text) /\
  (~ In text known_values ->
   exists out, find_enum_argument name default_index known_values argv =
               Exit UnrecognizedEnumValue out /\
   forall i v, nth_error known_values i = Some v ->
   In ("    '" ++ v ++ "'" ++ (if (Z.of_nat i =? default_index)%Z then " (default)" else "")
       ++ nl) out).
Proof.
  intros H. unfold find_enum_argument. rewrite H. split.
  - intros r. destruct (find_enum_loop text known_values 0) as [i|] eqn:E.
    + pose proof (find_enum_loop_some _ _ _ _ E) as [_ Hn].
      pose proof (find_enum_loop_first _ _ _ _ E) as Hf.
      rewrite Nat.sub_0_r in Hn, Hf. split.
      * intros Hr. injection Hr as <-. exists i. auto.
      * intros (i' & -> & Hn' & Hf'). f_equal. f_equal.
        destruct (Nat.lt_trichotomy i i') as [Hl|[Hl|Hl]]; auto.
        -- exfalso. apply (Hf' i Hl Hn).
        -- exfalso. apply (Hf i' Hl Hn').
    + apply find_enum_loop_none in E. split; [discriminate|].
      intros (i & _ & Hn & _). exfalso. apply E. eapply nth_error_In. exact Hn.
  - intros Hni. apply find_enum_loop_none with (k := 0) in Hni. rewrite Hni.
    eexists. split; [reflexivity|]. intros i v Hv. right. right.
    apply in_or_app. left. exact (enum_listing_line known_values default_index 0 i v Hv).
Qed.

(** [find_enum_argument] with the flag absent: a non-negative
    [default_index] is returned as it is, with no check that it indexes
    [known_values]; a negative one fails with [MissingRequiredValue], and
    the message lists every known value, none marked as the default. *)
Theorem find_enum_argument_absent (name : string) (default_index : Z)
  (known_values argv : list string) :
  find_argument name argv = None ->
  ((0 <= default_index)%Z ->
   find_enum_argument name default_index known_values argv = Ok default_index) /\
  ((default_index < 0)%Z ->
   exists out, find_enum_argument name default_index known_values argv =
               Exit MissingRequiredValue out /\
   forall v, In v known_values -> In ("    '" ++ v ++ "'" ++ nl) out).
Proof.
  intros H. unfold find_enum_argument. rewrite H. split.
  - intros Hd. replace (default_index >=? 0)%Z with true by (symmetry; apply Z.geb_le; lia).
    reflexivity.
  - intros Hd. replace (default_index >=? 0)%Z with false
      by (symmetry; rewrite Z.geb_leb; apply Z.leb_gt; lia).
    eexists. split; [reflexivity|]. intros v Hv.
    apply In_nth_error in Hv as (i & Hi).
    pose proof (enum_listing_line known_values default_index 0 i v Hi) as Hl.
    replace (Z.of_nat (0 + i) =? default_index)%Z with false in Hl
      by (symmetry; apply Z.eqb_neq; lia).
    right. right. apply in_or_app. left. exact Hl.
Qed.


(** A result of [find_float_argument] is never below [min_value] nor above
    [max_value] (by the comparisons of the code), and a value parsed from
    the command line is never NaN. *)
Theorem find_float_argument_in_range (name : string) (default_value min_value max_value : float)
  (argv : list string) (f : float) :
  find_float_argument name default_value min_value max_value argv = Ok f ->
  flt_lt f min_value = false /\ flt_gt f max_value = false /\
  (find_argument name argv <> None -> is_nan f = false).
Proof.
  unfold find_float_argument. destruct (find_argument name argv) as [text|].
  - destruct (strtof text) as [g p]. destruct (negb (c_is_nul text p)); [discriminate|].
    destruct (flt_lt g min_value) eqn:E1; [discriminate|].
    destruct (flt_gt g max_value) eqn:E2; [discriminate|].
    destruct (flt_eq g g) eqn:E3; [|discriminate].
    intros E. injection E as <-. repeat split; auto.
    intros _. destruct g; [discriminate | reflexivity | reflexivity].
  - destruct (flt_lt default_value min_value) eqn:E1; [discriminate|].
    destruct (flt_gt default_value max_value) eqn:E2; [discriminate|].
    intros E. injection E as <-. repeat split; auto. intros C. congruence.
Qed.

(** [check_for_unknown_arguments] accepts every vector in which each token
    before the boundary is a known flag, bare or [name=value]. *)
Theorem check_for_unknown_arguments_all_known (known_arguments : list string)
  (for_mode : option string) (argv : list string) :
  (forall i, 1 <= i < boundary argv ->
   exists k, In k known_arguments /\ token_matches k (arg_at argv i)) ->
  check_for_unknown_arguments known_arguments for_mode argv = Ok tt.
Proof.
  intros H. destruct argv as [|x rest]; [reflexivity|].
  pose proof (boundary_is_shape (x :: rest) ltac:(discriminate)) as (Hb & _).
  unfold check_for_unknown_arguments.
  destruct (check_loop known_arguments for_mode (x :: rest) 1 (List.length (x :: rest)))
    as [[]|e out] eqn:E; [reflexivity|].
  destruct (check_loop_scan known_arguments for_mode (x :: rest)
              (List.length (x :: rest)) 1 ltac:(lia) ltac:(lia)) as [_ Hx].
  destruct (Hx e out E) as (_ & j & Hr & Hj & _).
  destruct (H j ltac:(lia)) as (k & Hk & Hm).
  exfalso. exact (scan_rejects_unmatched _ _ _ _ Hr k Hk Hm).
Qed.

(** With no known argument, [check_for_unknown_arguments] accepts exactly
    the vectors with no token between the program name and the boundary. *)
Theorem check_for_unknown_arguments_no_known (for_mode : option string) (argv : list string) :
  check_for_unknown_arguments [] for_mode argv = Ok tt <-> boundary argv <= 1.
Proof.
  destruct argv as [|x rest]; [simpl; split; auto|].
  pose proof (boundary_is_shape (x :: rest) ltac:(discriminate)) as (Hb & _).
  unfold check_for_unknown_arguments.
  rewrite (proj1 (check_loop_scan [] for_mode (x :: rest) (List.length (x :: rest)) 1
                   ltac:(lia) ltac:(lia))).
  split.
  - intros Hs. inversion Hs as [i Hi | i k _ Hm | i k _ Hm]; subst; [exact Hi | |];
      destruct Hm as (pre & post & Ek & _); destruct pre; discriminate Ek.
  - intros Hle. now apply scan_done.
Qed.

(** [check_for_unknown_arguments] reads neither the program name nor
    anything from the boundary on: two vectors with the same boundary and
    the same tokens before it get the same answer, message included. *)
Theorem check_for_unknown_arguments_ignores_rest (known_arguments : list string)
  (for_mode : option string) (argv argv' : list string) :
  boundary argv' = boundary argv ->
  (forall i, 1 <= i < boundary argv -> arg_at argv' i = arg_at argv i) ->
  check_for_unknown_arguments known_arguments for_mode argv' =
  check_for_unknown_arguments known_arguments for_mode argv.
Proof.
  intros Hb Ht. destruct argv as [|x rest].
  - simpl in Hb. apply boundary_nil_iff in Hb. now subst argv'.
  - assert (Hne' : argv' <> []).
    { intros E. subst argv'. assert (Hz : boundary (x :: rest) = 0) by (rewrite <- Hb; reflexivity).
      apply boundary_nil_iff in Hz. discriminate. }
    pose proof (boundary_is_shape (x :: rest) ltac:(discriminate)) as (Hs & _).
    pose proof (boundary_is_shape argv' Hne') as (Hs' & _).
    unfold check_for_unknown_arguments.
    apply check_loop_agree; auto; lia.
Qed.

(** ** Instances of the properties *)

Lemma find_argument_value_source_witness :
  find_argument "x" ["prog"; "x=a=b"; "x"; "y"] = Some "a=b" /\
  exists i, 1 <= i < boundary ["prog"; "x=a=b"; "x"; "y"] /\
    (forall j, 1 <= j < i -> ~ token_matches "x" (arg_at ["prog"; "x=a=b"; "x"; "y"] j)) /\
    (arg_at ["prog"; "x=a=b"; "x"; "y"] i = "x" ++ "=" ++ "a=b" \/
     (arg_at ["prog"; "x=a=b"; "x"; "y"] i = "x" /\ "a=b" = "") \/
     (arg_at ["prog"; "x=a=b"; "x"; "y"] i = "x" /\ S i < boundary ["prog"; "x=a=b"; "x"; "y"] /\
      arg_at ["prog"; "x=a=b"; "x"; "y"] (S i) = "a=b" /\ starts_with_dash "a=b" = false)).
Proof.
  split; [reflexivity|].
  apply (find_argument_value_source "x" ["prog"; "x=a=b"; "x"; "y"] "a=b"). reflexivity.
Defined.

Lemma find_enum_argument_first_index_witness :
  find_argument "m" ["prog"; "m=b"] = Some "b" /\
  find_enum_argument "m" 0 ["a"; "b"; "b"] ["prog"; "m=b"] = Ok 1%Z.
Proof.
  split; [reflexivity|].
  apply (proj1 (find_enum_argument_first_index "m" 0 ["a"; "b"; "b"] ["prog"; "m=b"] "b"
                  eq_refl) 1%Z).
  exists 1. split; [reflexivity|]. split; [reflexivity|].
  intros j Hj. assert (j = 0) as -> by lia. discriminate.
Defined.

Lemma find_enum_argument_absent_witness :
  find_argument "m" ["prog"; "--"; "m=b"] = None /\
  find_enum_argument "m" 7 ["a"; "b"] ["prog"; "--"; "m=b"] = Ok 7%Z.
Proof.
  split; [reflexivity|].
  apply (proj1 (find_enum_argument_absent "m" 7 ["a"; "b"] ["prog"; "--"; "m=b"] eq_refl)).
  lia.
Defined.


Lemma find_float_argument_in_range_witness :
  find_float_argument "f" (FFin 0) (FFin 0) (FFin 10) ["prog"; "f=2"] = Ok (FFin 2) /\
  flt_lt (FFin 2) (FFin 0) = false /\ flt_gt (FFin 2) (FFin 10) = false /\
  (find_argument "f" ["prog"; "f=2"] <> None -> is_nan (FFin 2) = false).
Proof.
  assert (H : find_float_argument "f" (FFin 0) (FFin 0) (FFin 10) ["prog"; "f=2"] = Ok (FFin 2))
    by reflexivity.
  split; [exact H|].
  exact (find_float_argument_in_range "f" (FFin 0) (FFin 0) (FFin 10) ["prog"; "f=2"] _ H).
Defined.

Lemma check_for_unknown_arguments_all_known_witness :
  (forall i, 1 <= i < boundary ["prog"; "--a=1"; "--b"; "--"; "junk"] ->
   exists k, In k ["--a"; "--b"] /\
             token_matches k (arg_at ["prog"; "--a=1"; "--b"; "--"; "junk"] i)) /\
  check_for_unknown_arguments ["--a"; "--b"] None ["prog"; "--a=1"; "--b"; "--"; "junk"] = Ok tt.
Proof.
  assert (H : forall i, 1 <= i < boundary ["prog"; "--a=1"; "--b"; "--"; "junk"] ->
              exists k, In k ["--a"; "--b"] /\
                        token_matches k (arg_at ["prog"; "--a=1"; "--b"; "--"; "junk"] i)).
  { intros i Hi. simpl in Hi. destruct (Nat.eq_dec i 1) as [->|Hn].
    - exists "--a". split; [left; reflexivity|]. right. exists "1". reflexivity.
    - assert (i = 2) as -> by lia.
      exists "--b". split; [right; left; reflexivity|]. left. reflexivity. }
  split; [exact H|].
  exact (check_for_unknown_arguments_all_known ["--a"; "--b"] None
           ["prog"; "--a=1"; "--b"; "--"; "junk"] H).
Defined.

Lemma check_for_unknown_arguments_ignores_rest_witness :
  boundary ["other"; "--a"; "--"; "-q"] = boundary ["prog"; "--a"; "--"; "junk"] /\
  check_for_unknown_arguments ["--b"] None ["other"; "--a"; "--"; "-q"] =
  check_for_unknown_arguments ["--b"] None ["prog"; "--a"; "--"; "junk"].
Proof.
  split; [reflexivity|].
  apply check_for_unknown_arguments_ignores_rest; [reflexivity|].
  intros i Hi. simpl in Hi. assert (i = 1) as -> by lia. reflexivity.
Defined.
